(** * crypter: the encrypted-container workflow of [crypter/crypter.py]

    A shallow embedding of [FileEncryptor]: the container layout, the
    breach-check client and the encrypt / decrypt workflows, followed by
    the properties of the specification that concern them.

    Conventions of the embedding.
    - A Python [str] is a Rocq [string] holding its UTF-8 encoding, so
      [s.encode("utf-8")] is the list of the bytes of [s]; [bytes] is
      [list byte].
    - The methods run in a monad [M] over an explicit [World]: the file
      system, the operator's scripted answers to the [inquirer] prompts,
      the remote breach service, the entropy source and the console.
    - [hashlib] and [AESGCM] are external libraries: they are the fields of
      the class [CryptoLib], with the part of their contract the workflow
      relies on.  The modules [Sha], [Aes] and [Gcm] implement them as the
      standards define them and are shown to meet that contract.
    - A [while True] loop takes the number of iterations it may run; it
      never runs out of them when given more than the operator has
      answers ([decrypt_loop_enough_fuel]). *)

From Stdlib Require Import ZArith NArith Ascii String List Lia.
From Stdlib.Strings Require Import Byte.
From stdpp Require Import base gmap strings list fin_maps.
Import ListNotations.
Local Open Scope string_scope.
Local Open Scope list_scope.

(** ** Bytes and strings *)

Abbreviation bytes := (list byte).

#[global] Instance byte_eq_decision : EqDecision byte := Byte.byte_eq_dec.

(** [b"..."]: the bytes of an ASCII literal. *)
Definition b_lit (s : string) : bytes := list_byte_of_string s.

(** [s.encode("utf-8")]. *)
Definition encode_utf8 (s : string) : bytes := list_byte_of_string s.

(** [s[:n]] and [s[n:]] on [str]. *)
Fixpoint str_take (n : nat) (s : string) : string :=
  match n, s with
  | S k, String c s' => String c (str_take k s')
  | _, _ => EmptyString
  end.

Fixpoint str_drop (n : nat) (s : string) : string :=
  match n, s with
  | S k, String _ s' => str_drop k s'
  | _, _ => s
  end.

(** [s.startswith(p)]. *)
Fixpoint startswith (p s : string) : bool :=
  match p, s with
  | EmptyString, _ => true
  | String a p', String c s' => if Ascii.eqb a c then startswith p' s' else false
  | String _ _, EmptyString => false
  end.

Fixpoint str_rev_onto (acc s : string) : string :=
  match s with
  | EmptyString => acc
  | String c s' => str_rev_onto (String c acc) s'
  end.

Definition str_rev (s : string) : string := str_rev_onto EmptyString s.

(** [s.split(sep)] for a non-empty [sep]: the pieces between the
    occurrences of [sep], found from the left without overlap.  [skip]
    counts the characters of a matched separator still to pass, [cur] is
    the current piece, reversed. *)
Fixpoint split_from (sep : string) (skip : nat) (cur : string) (s : string)
  : list string :=
  match s with
  | EmptyString => [str_rev cur]
  | String c s' =>
      match skip with
      | S k => split_from sep k cur s'
      | O =>
          if startswith sep s
          then str_rev cur :: split_from sep (String.length sep - 1) EmptyString s'
          else split_from sep 0 (String c cur) s'
      end
  end.

Definition split (sep s : string) : list string := split_from sep 0 EmptyString s.

(** [s.rfind(sep)]: the highest index at which [sep] occurs in [s]. *)
Fixpoint rfind_from (sep : string) (i : nat) (s : string) : option nat :=
  match s with
  | EmptyString => if startswith sep EmptyString then Some i else None
  | String _ s' =>
      match rfind_from sep (S i) s' with
      | Some j => Some j
      | None => if startswith sep s then Some i else None
      end
  end.

Definition rfind (sep s : string) : option nat := rfind_from sep 0 s.

(** [s.rsplit(sep, 1)]: at most one split, at the last occurrence. *)
Definition rsplit1 (sep s : string) : list string :=
  match rfind sep s with
  | Some i => [str_take i s; str_drop (i + String.length sep) s]
  | None => [s]
  end.

(** [xs[0]] on a list of strings that is never empty here. *)
Definition item0 (xs : list string) : string := hd EmptyString xs.

(** [sep] occurs in [s]. *)
Definition occurs (sep s : string) : Prop :=
  exists a c, s = (a ++ sep ++ c)%string.

(** Every character of [s] satisfies [p]. *)
Fixpoint str_forall (p : ascii -> bool) (s : string) : bool :=
  match s with
  | EmptyString => true
  | String c s' => p c && str_forall p s'
  end.

(** [s[i]], when [i] is in range. *)
Fixpoint str_get (i : nat) (s : string) {struct s} : option ascii :=
  match s, i with
  | EmptyString, _ => None
  | String c _, O => Some c
  | String _ s', S k => str_get k s'
  end.

(** The digits of an upper-case hexadecimal rendering. *)
Definition is_upper_hex (c : ascii) : bool :=
  let n := N_of_ascii c in
  ((48 <=? n) && (n <=? 57) || (65 <=? n) && (n <=? 70))%N.

(** The text of [s] before its first [c], all of [s] when it has none. *)
Fixpoint before (c : ascii) (s : string) : string :=
  match s with
  | EmptyString => EmptyString
  | String x s' => if Ascii.eqb c x then EmptyString else String x (before c s')
  end.

(** The one-character string of a code point below 256. *)
Definition chr (n : nat) : string := String (ascii_of_nat n) EmptyString.

(** The line boundaries of [str.splitlines]: LF, CR, CR LF, VT, FF, FS,
    GS, RS, and in UTF-8 NEL (C2 85), LS (E2 80 A8) and PS (E2 80 A9).
    [line_break s] is the number of bytes of the boundary [s] starts with,
    0 when it starts with none. *)
Definition line_break (s : string) : nat :=
  if startswith (chr 13 ++ chr 10) s then 2
  else if existsb (fun n => startswith (chr n) s) [10; 11; 12; 13; 28; 29; 30]%nat then 1
  else if startswith (chr 194 ++ chr 133) s then 2
  else if startswith (chr 226 ++ chr 128 ++ chr 168) s then 3
  else if startswith (chr 226 ++ chr 128 ++ chr 169) s then 3
  else 0.

(** [s.splitlines()]: the lines without their boundaries; a final
    boundary opens no empty last line.  [skip] counts the bytes of a
    matched boundary still to pass, [cur] is the current line, reversed. *)
Fixpoint splitlines_from (skip : nat) (cur : string) (s : string) : list string :=
  match s with
  | EmptyString => match cur with EmptyString => [] | _ => [str_rev cur] end
  | String c s' =>
      match skip with
      | S k => splitlines_from k cur s'
      | O =>
          match line_break s with
          | O => splitlines_from 0 (String c cur) s'
          | S k => str_rev cur :: splitlines_from k EmptyString s'
          end
      end
  end.

Definition splitlines (s : string) : list string := splitlines_from 0 EmptyString s.

(** ** The world the program runs in *)

(** The exceptions the modelled calls raise; all derive from [Exception]. *)
Inductive exn : Type :=
  | FileNotFoundError
  | PermissionError
  | IsADirectoryError
  | ValueError
  | InvalidTag
  | ConnectionError.

(** A path names a directory or a regular file with its content. *)
Inductive node : Type :=
  | Dir
  | File (data : bytes).

(** What [requests.get] meets: a transport failure, or a response with its
    status code and its text. *)
Inductive reply : Type :=
  | Unreachable
  | Response (status_code : Z) (text : string).

(** What the terminal shows: a [console.print] or the message of a prompt. *)
Inductive event : Type :=
  | Printed (msg : string)
  | Asked (msg : string).

(** - [fs]: what each path holds, keyed by the path as the program hands
      it to the operating system.  The map knows nothing of two spellings
      of one file ([vault] and [./vault]), of links or of the working
      directory: they are different keys.  What a statement says of one
      key after a write or a removal at another key is therefore said of
      two paths that name different files.
    - [typed]: the operator's answers to the text and password prompts, in
      order; [None] is Enter on the text the prompt starts with (its
      default, the empty string when it has none), [Some s] is that text
      replaced by [s].
    - [confirms]: the answers to the yes/no prompts, in order.
    - [open_faults]: what the operating system does at each [open], in
      order; [Some e] makes that call raise [e] whatever the file system
      holds (a file removed or locked by another process, a failing disk),
      [None] or an exhausted list lets it proceed.
    - [net]: the reply of the remote service to each URL; [sent]: the
      URLs requested so far.
    - [entropy], [drawn]: the operating system's random bytes and how many
      were drawn.
    - [terminal]: what was shown so far, latest last. *)
Record World : Type := mkWorld {
  fs : gmap string node;
  typed : list (option string);
  confirms : list bool;
  open_faults : list (option exn);
  net : string -> reply;
  sent : list string;
  entropy : nat -> byte;
  drawn : nat;
  terminal : list event
}.

Definition with_fs (f : gmap string node) (w : World) : World :=
  mkWorld f (typed w) (confirms w) (open_faults w) (net w) (sent w)
          (entropy w) (drawn w) (terminal w).
Definition with_typed (t : list (option string)) (w : World) : World :=
  mkWorld (fs w) t (confirms w) (open_faults w) (net w) (sent w)
          (entropy w) (drawn w) (terminal w).
Definition with_confirms (c : list bool) (w : World) : World :=
  mkWorld (fs w) (typed w) c (open_faults w) (net w) (sent w)
          (entropy w) (drawn w) (terminal w).
Definition with_open_faults (o : list (option exn)) (w : World) : World :=
  mkWorld (fs w) (typed w) (confirms w) o (net w) (sent w)
          (entropy w) (drawn w) (terminal w).
Definition with_sent (s : list string) (w : World) : World :=
  mkWorld (fs w) (typed w) (confirms w) (open_faults w) (net w) s
          (entropy w) (drawn w) (terminal w).
Definition with_drawn (d : nat) (w : World) : World :=
  mkWorld (fs w) (typed w) (confirms w) (open_faults w) (net w) (sent w)
          (entropy w) d (terminal w).
Definition with_terminal (t : list event) (w : World) : World :=
  mkWorld (fs w) (typed w) (confirms w) (open_faults w) (net w) (sent w)
          (entropy w) (drawn w) t.

(** What the operating system injects at the next [open]. *)
Definition pending_fault (w : World) : option exn := hd None (open_faults w).

(** The world after a prompt showed [msg], and after [msg] was printed. *)
Definition asked (msg : string) (w : World) : World :=
  with_terminal (terminal w ++ [Asked msg]) w.

Definition warned (msg : string) (w : World) : World :=
  with_terminal (terminal w ++ [Printed msg]) w.

(** The operator's script and the faults of the operating system laid
    over a world. *)
Definition scripted (answers : list (option string)) (yes_no : list bool)
           (faults : list (option exn)) (w : World) : World :=
  with_open_faults faults (with_confirms yes_no (with_typed answers w)).

(** ** The monad of the methods *)

(** A call returns a value, raises, waits for an answer the operator never
    gives, or exceeds the number of loop iterations the model was given. *)
Inductive res (A : Type) : Type :=
  | Ok (a : A)
  | Raise (e : exn)
  | Blocked
  | OutOfFuel.
Arguments Ok {A} a.
Arguments Raise {A} e.
Arguments Blocked {A}.
Arguments OutOfFuel {A}.

Definition M (A : Type) : Type := World -> res A * World.

Definition ret {A} (a : A) : M A := fun w => (Ok a, w).

Definition bind {A B} (m : M A) (k : A -> M B) : M B :=
  fun w =>
    match m w with
    | (Ok a, w') => k a w'
    | (Raise e, w') => (Raise e, w')
    | (Blocked, w') => (Blocked, w')
    | (OutOfFuel, w') => (OutOfFuel, w')
    end.

Definition raise {A} (e : exn) : M A := fun w => (Raise e, w).

Definition out_of_fuel {A} : M A := fun w => (OutOfFuel, w).

(** [try: m  except ...: h e]; the handler re-raises what its clause does
    not catch. *)
Definition try_except {A} (m : M A) (h : exn -> M A) : M A :=
  fun w =>
    match m w with
    | (Raise e, w') => h e w'
    | r => r
    end.

Declare Scope M_scope.
Delimit Scope M_scope with M.
Bind Scope M_scope with M.
Notation "x ← y ; z" := (bind y (fun x => z))
  (at level 20, y at level 100, z at level 200, only parsing) : M_scope.
Notation "' x ← y ; z" := (bind y (fun x => z))
  (at level 20, x pattern, y at level 100, z at level 200, only parsing) : M_scope.
Notation "x ;; z" := (bind x (fun _ => z))
  (at level 100, z at level 200, only parsing, right associativity) : M_scope.
Local Open Scope M_scope.

(** *** The calls into the operating system and the libraries *)

(** [console.print(msg)]. *)
Definition console_print (msg : string) : M unit :=
  fun w => (Ok tt, with_terminal (terminal w ++ [Printed msg]) w).

(** An [inquirer] text or password prompt that starts with the text
    [default]. *)
Definition prompt_text (message default : string) : M string :=
  fun w =>
    let w' := with_terminal (terminal w ++ [Asked message]) w in
    match typed w with
    | [] => (Blocked, w')
    | None :: rest => (Ok default, with_typed rest w')
    | Some s :: rest => (Ok s, with_typed rest w')
    end.

(** An [inquirer] yes/no prompt. *)
Definition prompt_confirm (message : string) : M bool :=
  fun w =>
    let w' := with_terminal (terminal w ++ [Asked message]) w in
    match confirms w with
    | [] => (Blocked, w')
    | b :: rest => (Ok b, with_confirms rest w')
    end.

(** [os.path.isfile(path)] and [os.path.exists(path)]: neither raises. *)
Definition os_path_isfile (path : string) : M bool :=
  fun w => (Ok (match fs w !! path with Some (File _) => true | _ => false end), w).

Definition os_path_exists (path : string) : M bool :=
  fun w => (Ok (match fs w !! path with Some _ => true | None => false end), w).

(** [os.path.getsize(path)]; the size only feeds the progress bar. *)
Definition os_path_getsize (path : string) : M nat :=
  fun w =>
    match fs w !! path with
    | Some (File data) => (Ok (length data), w)
    | Some Dir => (Ok 0, w)
    | None => (Raise FileNotFoundError, w)
    end.

(** The next entry of [open_faults], consumed by an [open]. *)
Definition next_fault : M (option exn) :=
  fun w =>
    match open_faults w with
    | [] => (Ok None, w)
    | f :: rest => (Ok f, with_open_faults rest w)
    end.

(** An open file read through its position, as [f.seek] and [f.read] do. *)
Record reader : Type := mkReader { r_data : bytes; r_pos : nat }.

(** [open(path, "rb")]. *)
Definition open_rb (path : string) : M reader :=
  fault ← next_fault;
  match fault with
  | Some e => raise e
  | None =>
      fun w =>
        match fs w !! path with
        | Some (File data) => (Ok (mkReader data 0), w)
        | Some Dir => (Raise IsADirectoryError, w)
        | None => (Raise FileNotFoundError, w)
        end
  end.

(** [f.seek(n)], [f.read(n)] and [f.read()]: a read past the end returns
    what is left. *)
Definition seek (n : nat) (f : reader) : reader := mkReader (r_data f) n.

Definition read (n : nat) (f : reader) : bytes * reader :=
  let got := take n (drop (r_pos f) (r_data f)) in
  (got, mkReader (r_data f) (r_pos f + length got)).

Definition read_all (f : reader) : bytes * reader :=
  let got := drop (r_pos f) (r_data f) in
  (got, mkReader (r_data f) (r_pos f + length got)).

(** [open(path, "wb")]: creates the file or empties it. *)
Definition open_wb (path : string) : M unit :=
  fault ← next_fault;
  match fault with
  | Some e => raise e
  | None =>
      fun w =>
        match fs w !! path with
        | Some Dir => (Raise IsADirectoryError, w)
        | _ => (Ok tt, with_fs (<[path := File []]> (fs w)) w)
        end
  end.

(** [fout.write(data)] on the file opened at [path]. *)
Definition write (path : string) (data : bytes) : M unit :=
  fun w =>
    match fs w !! path with
    | Some (File old) => (Ok tt, with_fs (<[path := File (old ++ data)]> (fs w)) w)
    | _ => (Ok tt, w)
    end.

(** [os.remove(path)]. *)
Definition os_remove (path : string) : M unit :=
  fun w =>
    match fs w !! path with
    | Some (File _) => (Ok tt, with_fs (delete path (fs w)) w)
    | Some Dir => (Raise IsADirectoryError, w)
    | None => (Raise FileNotFoundError, w)
    end.

(** [os.urandom(n)]. *)
Definition os_urandom (n : nat) : M bytes :=
  fun w => (Ok (map (entropy w) (seq (drawn w) n)), with_drawn (drawn w + n) w).

(** [requests.get(url)]: the request leaves the process, then the reply
    or a transport error comes back. *)
Definition requests_get (url : string) : M (Z * string) :=
  fun w =>
    let w' := with_sent (sent w ++ [url]) w in
    match net w url with
    | Unreachable => (Raise ConnectionError, w')
    | Response code text => (Ok (code, text), w')
    end.

(** ** The cryptographic libraries *)

(** [hashlib.sha1], [hashlib.sha256] and the AES-GCM primitive behind
    [AESGCM], with the contract the workflow relies on: digest sizes, the
    16-byte tag appended to the ciphertext, and decryption inverting
    encryption under the same 32-byte key and 12-byte nonce. *)
Class CryptoLib : Type := {
  sha1 : bytes -> bytes;
  sha256 : bytes -> bytes;
  gcm_encrypt : bytes -> bytes -> bytes -> bytes;
  gcm_decrypt : bytes -> bytes -> bytes -> option bytes;
  sha1_length : forall m, length (sha1 m) = 20;
  sha256_length : forall m, length (sha256 m) = 32;
  gcm_encrypt_length :
    forall key nonce data,
      length (gcm_encrypt key nonce data) = length data + 16;
  gcm_decrypt_encrypt :
    forall key nonce data,
      length key = 32 -> length nonce = 12 ->
      gcm_decrypt key nonce (gcm_encrypt key nonce data) = Some data
}.

(** Two lower-case hexadecimal digits per byte, as [hexdigest] renders. *)
Definition hex_digit (n : N) : ascii :=
  ascii_of_N (if (n <? 10)%N then 48 + n else 87 + n)%N.

Definition hex_of_byte (b : byte) : string :=
  let n := Byte.to_N b in
  String (hex_digit (n / 16)%N) (String (hex_digit (n mod 16)%N) EmptyString).

Fixpoint hexlify (bs : bytes) : string :=
  match bs with
  | [] => EmptyString
  | b :: rest => hex_of_byte b ++ hexlify rest
  end.

(** [s.upper()] on ASCII text. *)
Definition upper_char (c : ascii) : ascii :=
  let n := N_of_ascii c in
  if ((97 <=? n) && (n <=? 122))%N then ascii_of_N (n - 32)%N else c.

Fixpoint upper (s : string) : string :=
  match s with
  | EmptyString => EmptyString
  | String c s' => String (upper_char c) (upper s')
  end.

(** ** [FileEncryptor] *)

(** The [return] statement a workflow method leaves through (each returns
    [None]; the name records which one was reached). *)
Inductive encrypt_exit : Type :=
  | EncryptNotFound
  | EncryptRefused
  | EncryptCancelled
  | EncryptDone.

Inductive decrypt_exit : Type :=
  | DecryptNotFound
  | DecryptNotContainer
  | DecryptAbandoned
  | DecryptDone.

(** How an iteration of the decrypt loop leaves it. *)
Inductive loop_exit : Type :=
  | Break
  | Return.

Definition HEADER_SIGNATURE : bytes := b_lit "YJCHGCM1".
Definition HEADER_LEN : nat := length HEADER_SIGNATURE.
Definition IV_LEN : nat := 12.

(** [not s] on a [str]. *)
Definition falsy (s : string) : bool := bool_decide (s = EmptyString).

Section FileEncryptor.
Context `{CryptoLib}.

(** [AESGCM(key)] accepts keys of 128, 192 and 256 bits. *)
Definition AESGCM (key : bytes) : M bytes :=
  if bool_decide (length key ∈ [16; 24; 32]) then ret key else raise ValueError.

(** The nonce check of [AESGCM.encrypt] and [AESGCM.decrypt]. *)
Definition nonce_ok (nonce : bytes) : bool :=
  bool_decide (8 <= length nonce <= 128).

(** [aesgcm.encrypt(nonce, data, None)]. *)
Definition aesgcm_encrypt (key nonce data : bytes) : M bytes :=
  if nonce_ok nonce then ret (gcm_encrypt key nonce data) else raise ValueError.

(** [aesgcm.decrypt(nonce, data, None)]. *)
Definition aesgcm_decrypt (key nonce data : bytes) : M bytes :=
  if nonce_ok nonce then
    if bool_decide (length data < 16) then raise InvalidTag
    else match gcm_decrypt key nonce data with
         | Some plain => ret plain
         | None => raise InvalidTag
         end
  else raise ValueError.

Definition _confirm (message : string) : M bool := prompt_confirm message.

Definition _ask_file_path : M string := prompt_text "Chemin du fichier" "".

Definition _ask_password : M string := prompt_text "Mot de passe" "".

Definition _ask_output_path (default_path : string) : M string :=
  prompt_text "Chemin fichier de sortie" default_path.

(** The list prompt answers with the value of the chosen entry; Enter
    takes the first one. *)
Definition _show_menu : M string :=
  prompt_text "Que souhaitez-vous faire ?" "encrypt".

Definition _derive_key (password : string) : bytes :=
  sha256 (encode_utf8 password).

Definition _is_already_encrypted (path : string) : M bool :=
  try_except
    (f ← open_rb path;
     let header := fst (read HEADER_LEN f) in
     ret (bool_decide (header = HEADER_SIGNATURE)))
    (fun e =>
       match e with
       | FileNotFoundError =>
           console_print ("[red]Fichier introuvable : " ++ path ++ "[/red]");;
           ret false
       | _ => raise e
       end).

Definition pwned_url (prefix : string) : string :=
  "https://api.pwnedpasswords.com/range/" ++ prefix.

Definition sha1_hex_upper (password : string) : string :=
  upper (hexlify (sha1 (encode_utf8 password))).

Definition _check_password_pwned (password : string) : M bool :=
  let sha1_pw := sha1_hex_upper password in
  let prefix := str_take 5 sha1_pw in
  let suffix := str_drop 5 sha1_pw in
  let url := pwned_url prefix in
  try_except
    ('(status_code, text) ← requests_get url;
     if bool_decide (status_code ≠ 200%Z) then
       console_print "[red]Erreur API HaveIBeenPwned[/red]";;
       ret false
     else
       let hashes := map (fun line => item0 (split ":" line)) (splitlines text) in
       ret (bool_decide (suffix ∈ hashes)))
    (fun _ =>
       console_print "[red]Erreur de connexion à l'API HaveIBeenPwned[/red]";;
       ret false).

(** The [while True] loops take the number of iterations they may run. *)
Fixpoint _ask_password_and_verify (fuel : nat) : M string :=
  match fuel with
  | O => out_of_fuel
  | S fuel' =>
      password ← _ask_password;
      if falsy password then
        console_print "[red]Mot de passe vide, réessayez.[/red]";;
        _ask_password_and_verify fuel'
      else
        pwned ← _check_password_pwned password;
        if pwned then
          console_print "[bold red]Attention : Ce mot de passe a été compromis ![/bold red]";;
          keep ← _confirm "Voulez-vous utiliser ce mot de passe quand même ?";
          if negb keep then _ask_password_and_verify fuel' else ret password
        else ret password
  end.

(** Lines 81 to 108: derive the key, encrypt the whole file, write the
    container.  The progress bar only displays. *)
Definition encrypt_to (path output_path password : string) : M unit :=
  let key := _derive_key password in
  iv ← os_urandom IV_LEN;
  aesgcm ← AESGCM key;
  file_size ← os_path_getsize path;
  fin ← open_rb path;
  let data := fst (read_all fin) in
  encrypted ← aesgcm_encrypt aesgcm iv data;
  open_wb output_path;;
  write output_path HEADER_SIGNATURE;;
  write output_path iv;;
  write output_path encrypted.

Definition _handle_encrypt (fuel : nat) : M encrypt_exit :=
  path ← _ask_file_path;
  isfile ← os_path_isfile path;
  if falsy path || negb isfile then
    console_print ("[red]Fichier non trouvé : " ++ path ++ "[/red]");;
    ret EncryptNotFound
  else
    already ← _is_already_encrypted path;
    if already then
      console_print "[yellow]Ce fichier semble déjà chiffré. Impossible de chiffrer à nouveau.[/yellow]";;
      ret EncryptRefused
    else
      password ← _ask_password_and_verify fuel;
      let output_path := (path ++ ".yjch")%string in
      present ← os_path_exists output_path;
      declined ← (if present then
                    overwrite ← _confirm ("Le fichier " ++ output_path ++ " existe. Écraser ?");
                    ret (negb overwrite)
                  else ret false);
      if declined then
        console_print "[yellow]Opération annulée par l'utilisateur.[/yellow]";;
        ret EncryptCancelled
      else
        encrypt_to path output_path password;;
        console_print ("[bold green]Fichier chiffré créé :[/bold green] " ++ output_path);;
        delete ← _confirm ("Supprimer le fichier original " ++ path ++ " ?");
        (if delete then
           os_remove path;;
           console_print "[bold red]Fichier original supprimé.[/bold red]"
         else ret tt);;
        ret EncryptDone.

(** Lines 137 to 158, the body of the [try]: read the nonce and the
    ciphertext behind the signature, decrypt, write the plaintext.  The
    progress bar only displays. *)
Definition decrypt_to (path output_path : string) (key : bytes) : M unit :=
  fin ← open_rb path;
  let fin := seek HEADER_LEN fin in
  let '(iv, fin) := read IV_LEN fin in
  let encrypted_data := fst (read_all fin) in
  aesgcm ← AESGCM key;
  decrypted ← aesgcm_decrypt aesgcm iv encrypted_data;
  open_wb output_path;;
  write output_path decrypted.

(** Lines 129 to 165, the [while True] loop; [Break] is its [break],
    [Return] the [return] of the method from inside it. *)
Fixpoint decrypt_loop (fuel : nat) (path output_path : string) : M loop_exit :=
  match fuel with
  | O => out_of_fuel
  | S fuel' =>
      password ← _ask_password;
      if falsy password then
        console_print "[red]Mot de passe vide, réessayez.[/red]";;
        decrypt_loop fuel' path output_path
      else
        let key := _derive_key password in
        try_except
          (decrypt_to path output_path key;; ret Break)
          (fun _ =>
             console_print "[red]Mot de passe incorrect ou fichier corrompu.[/red]";;
             again ← _confirm "Réessayer avec un autre mot de passe ?";
             if negb again then
               console_print "[yellow]Déchiffrement annulé.[/yellow]";;
               ret Return
             else decrypt_loop fuel' path output_path)
  end.

Definition output_default (path : string) : string :=
  item0 (rsplit1 ".yjch" path).

Definition _handle_decrypt (fuel : nat) : M decrypt_exit :=
  path ← _ask_file_path;
  isfile ← os_path_isfile path;
  if falsy path || negb isfile then
    console_print ("[red]Fichier non trouvé : " ++ path ++ "[/red]");;
    ret DecryptNotFound
  else
    container ← _is_already_encrypted path;
    if negb container then
      console_print "[yellow]Ce fichier ne semble pas être chiffré par ce programme.[/yellow]";;
      ret DecryptNotContainer
    else
      output_path ← _ask_output_path (output_default path);
      left ← decrypt_loop fuel path output_path;
      match left with
      | Return => ret DecryptAbandoned
      | Break =>
          console_print ("[bold green]Fichier déchiffré créé :[/bold green] " ++ output_path);;
          delete ← _confirm ("Supprimer le fichier chiffré " ++ path ++ " ?");
          (if delete then
             os_remove path;;
             console_print "[bold red]Fichier chiffré supprimé.[/bold red]"
           else ret tt);;
          ret DecryptDone
      end.

Definition run (fuel : nat) : M unit :=
  action ← _show_menu;
  if bool_decide (action = "encrypt") then _handle_encrypt fuel;; ret tt
  else if bool_decide (action = "decrypt") then _handle_decrypt fuel;; ret tt
  else console_print "[red]Fermeture du programme.[/red]".

End FileEncryptor.

(** ** What the statements speak of *)

Section Described.
Context `{CryptoLib}.

(** The world once the range request for [password] has left. *)
Definition requested (password : string) (w : World) : World :=
  with_sent (sent w ++ [pwned_url (str_take 5 (sha1_hex_upper password))]) w.

(** The nonce [os.urandom] hands out in [w]. *)
Definition next_iv (w : World) : bytes := map (entropy w) (seq (drawn w) IV_LEN).

(** What the encrypt block writes for [data] under [password] in [w]. *)
Definition container_of (password : string) (data : bytes) (w : World) : bytes :=
  HEADER_SIGNATURE ++ next_iv w
    ++ gcm_encrypt (_derive_key password) (next_iv w) data.

(** The world at the retry question, after the attempt failed in [w2]. *)
Definition at_retry (w2 : World) : World :=
  asked "Réessayer avec un autre mot de passe ?"
    (warned "[red]Mot de passe incorrect ou fichier corrompu.[/red]" w2).

(** The world at the override question, after the check flagged the
    password in [w2]. *)
Definition at_override (w2 : World) : World :=
  asked "Voulez-vous utiliser ce mot de passe quand même ?"
    (warned "[bold red]Attention : Ce mot de passe a été compromis ![/bold red]" w2).

(** A request to the range endpoint for five upper-case hexadecimal
    digits. *)
Definition is_range_request (url : string) : bool :=
  startswith "https://api.pwnedpasswords.com/range/" url
  && (String.length url =? 42)%nat
  && str_forall is_upper_hex (str_drop 37 url).

(** The membership test in the words of the specification: the records
    of the body are its pieces between newlines, the suffix field of a
    record is the part before its colon, and a password is breached when
    its suffix is the suffix field of a record. *)
Definition spec_records (text : string) : list string := split (chr 10) text.

Definition spec_suffix_field (record : string) : option string :=
  match split ":" record with
  | field :: _ :: _ => Some field
  | _ => None
  end.

Definition spec_breached (suffix text : string) : bool :=
  existsb (fun record => bool_decide (spec_suffix_field record = Some suffix))
          (spec_records text).

End Described.

(** ** What the frame statements speak of *)

(** Whatever [m] sends is a range request. *)
Definition sends_ranges {A : Type} (m : M A) : Prop :=
  forall w r w',
    m w = (r, w') ->
    exists new, sent w' = sent w ++ new /\ forallb is_range_request new = true.

(** A call never lengthens the list of answers still to be typed. *)
Definition shrinks {A : Type} (m : M A) : Prop :=
  forall w r w', m w = (r, w') -> length (typed w') <= length (typed w).

(** A call given fewer than [n] answers does not stop for lack of
    iterations. *)
Definition ends_within {A : Type} (n : nat) (m : M A) : Prop :=
  forall w, length (typed w) < n -> fst (m w) <> OutOfFuel.


(** ** Reference implementations of the library primitives *)

(** SHA-1 and SHA-256 as FIPS 180-4 defines them and AES-GCM as FIPS 197
    and NIST SP 800-38D define it, on natural numbers: a byte is a number
    below 2^8, a word a number below 2^32, a block a number below 2^128. *)

Definition N_of_byte (b : byte) : N := Byte.to_N b.

Definition byte_of_N (n : N) : byte :=
  match Byte.of_N (n mod 256) with
  | Some b => b
  | None => x00
  end.

(** The [len] low bytes of [n], most significant first. *)
Fixpoint be_bytes (len : nat) (n : N) : bytes :=
  match len with
  | O => []
  | S k => be_bytes k (n / 256) ++ [byte_of_N n]
  end.

(** The number a byte string spells, most significant byte first. *)
Definition be_value (bs : bytes) : N :=
  fold_left (fun acc b => acc * 256 + N_of_byte b)%N bs 0%N.

(** [bs] cut into pieces of [n] bytes, [n] positive; the last may be
    shorter. *)
Fixpoint chunks_fuel (fuel n : nat) (bs : bytes) : list bytes :=
  match fuel, bs with
  | _, [] => []
  | O, _ => []
  | S f, _ => take n bs :: chunks_fuel f n (drop n bs)
  end.

Definition chunks (n : nat) (bs : bytes) : list bytes :=
  chunks_fuel (length bs) n bs.

Module Sha.

Definition mask32 (x : N) : N := (x mod 2 ^ 32)%N.
Definition add32 (x y : N) : N := mask32 (x + y).
Definition rotl32 (n x : N) : N :=
  mask32 (N.lor (N.shiftl x n) (N.shiftr x (32 - n))).
Definition rotr32 (n x : N) : N := rotl32 (32 - n) x.
Definition not32 (x : N) : N := (2 ^ 32 - 1 - x)%N.

(** The padding of both hashes: a 1 bit, zeros up to 56 modulo 64, and
    the length of the message in bits on 8 bytes. *)
Definition pad (m : bytes) : bytes :=
  let zeros := ((64 - (length m + 9) mod 64) mod 64)%nat in
  m ++ [x80] ++ repeat x00 zeros ++ be_bytes 8 (8 * N.of_nat (length m)).

Definition block_words (block : bytes) : list N :=
  map be_value (chunks 4 block).

Definition word (ws : list N) (i : nat) : N := nth i ws 0%N.

(** *** SHA-1 *)

Fixpoint sha1_schedule (n : nat) (ws : list N) : list N :=
  match n with
  | O => ws
  | S k =>
      let t := length ws in
      let w := rotl32 1 (N.lxor (N.lxor (word ws (t - 3)) (word ws (t - 8)))
                                (N.lxor (word ws (t - 14)) (word ws (t - 16)))) in
      sha1_schedule k (ws ++ [w])
  end.

Definition sha1_f (t : nat) (b c d : N) : N :=
  if (t <? 20)%nat then N.lor (N.land b c) (N.land (not32 b) d)
  else if (t <? 40)%nat then N.lxor (N.lxor b c) d
  else if (t <? 60)%nat then N.lor (N.lor (N.land b c) (N.land b d)) (N.land c d)
  else N.lxor (N.lxor b c) d.

Definition sha1_k (t : nat) : N :=
  if (t <? 20)%nat then 0x5A827999
  else if (t <? 40)%nat then 0x6ED9EBA1
  else if (t <? 60)%nat then 0x8F1BBCDC
  else 0xCA62C1D6.

Definition state5 : Type := N * N * N * N * N.

Definition sha1_round (ws : list N) (s : state5) (t : nat) : state5 :=
  let '(a, b, c, d, e) := s in
  let tmp := add32 (add32 (add32 (add32 (rotl32 5 a) (sha1_f t b c d)) e) (sha1_k t))
                   (word ws t) in
  (tmp, a, rotl32 30 b, c, d).

Definition sha1_block (h : state5) (block : bytes) : state5 :=
  let ws := sha1_schedule 64 (block_words block) in
  let '(a, b, c, d, e) := fold_left (sha1_round ws) (seq 0 80) h in
  let '(h0, h1, h2, h3, h4) := h in
  (add32 h0 a, add32 h1 b, add32 h2 c, add32 h3 d, add32 h4 e).

Definition sha1_init : state5 :=
  (0x67452301, 0xEFCDAB89, 0x98BADCFE, 0x10325476, 0xC3D2E1F0)%N.

Definition sha1 (m : bytes) : bytes :=
  let '(h0, h1, h2, h3, h4) := fold_left sha1_block (chunks 64 (pad m)) sha1_init in
  be_bytes 4 h0 ++ be_bytes 4 h1 ++ be_bytes 4 h2 ++ be_bytes 4 h3 ++ be_bytes 4 h4.

(** *** SHA-256 *)

(** The constants are the first 32 bits of the fractional parts of the
    square and cube roots of the first primes. *)
Definition is_prime (n : nat) : bool :=
  forallb (fun d => negb (n mod d =? 0)%nat) (seq 2 (n - 2)).

Definition primes64 : list N :=
  Eval vm_compute in map N.of_nat (filter is_prime (seq 2 310)).

(** The integer cube root, one bit at a time from bit 39 down. *)
Definition icbrt (n : N) : N :=
  fold_left
    (fun r k => let r' := (r + 2 ^ N.of_nat k)%N in
                if (r' * r' * r' <=? n)%N then r' else r)
    (rev (seq 0 40)) 0%N.

Definition sha256_k : list N :=
  Eval vm_compute in map (fun p => mask32 (icbrt (p * 2 ^ 96))) primes64.

Definition sha256_h : list N :=
  Eval vm_compute in map (fun p => mask32 (N.sqrt (p * 2 ^ 64))) (take 8 primes64).

Definition xor3 (x y z : N) : N := N.lxor (N.lxor x y) z.
Definition ch (x y z : N) : N := N.lxor (N.land x y) (N.land (not32 x) z).
Definition maj (x y z : N) : N := xor3 (N.land x y) (N.land x z) (N.land y z).
Definition big_sigma0 (x : N) : N := xor3 (rotr32 2 x) (rotr32 13 x) (rotr32 22 x).
Definition big_sigma1 (x : N) : N := xor3 (rotr32 6 x) (rotr32 11 x) (rotr32 25 x).
Definition sigma0 (x : N) : N := xor3 (rotr32 7 x) (rotr32 18 x) (N.shiftr x 3).
Definition sigma1 (x : N) : N := xor3 (rotr32 17 x) (rotr32 19 x) (N.shiftr x 10).

Fixpoint sha256_schedule (n : nat) (ws : list N) : list N :=
  match n with
  | O => ws
  | S k =>
      let t := length ws in
      let w := add32 (add32 (sigma1 (word ws (t - 2))) (word ws (t - 7)))
                     (add32 (sigma0 (word ws (t - 15))) (word ws (t - 16))) in
      sha256_schedule k (ws ++ [w])
  end.

Definition state8 : Type := N * N * N * N * N * N * N * N.

Definition sha256_round (ws : list N) (s : state8) (t : nat) : state8 :=
  let '(a, b, c, d, e, f, g, h) := s in
  let t1 := add32 (add32 (add32 (add32 h (big_sigma1 e)) (ch e f g)) (word sha256_k t))
                  (word ws t) in
  let t2 := add32 (big_sigma0 a) (maj a b c) in
  (add32 t1 t2, a, b, c, add32 d t1, e, f, g).

Definition sha256_block (s : state8) (block : bytes) : state8 :=
  let ws := sha256_schedule 48 (block_words block) in
  let '(a, b, c, d, e, f, g, h) := fold_left (sha256_round ws) (seq 0 64) s in
  let '(s0, s1, s2, s3, s4, s5, s6, s7) := s in
  (add32 s0 a, add32 s1 b, add32 s2 c, add32 s3 d,
   add32 s4 e, add32 s5 f, add32 s6 g, add32 s7 h).

Definition sha256_init : state8 :=
  (word sha256_h 0, word sha256_h 1, word sha256_h 2, word sha256_h 3,
   word sha256_h 4, word sha256_h 5, word sha256_h 6, word sha256_h 7).

Definition sha256 (m : bytes) : bytes :=
  let '(s0, s1, s2, s3, s4, s5, s6, s7) :=
    fold_left sha256_block (chunks 64 (pad m)) sha256_init in
  be_bytes 4 s0 ++ be_bytes 4 s1 ++ be_bytes 4 s2 ++ be_bytes 4 s3
    ++ be_bytes 4 s4 ++ be_bytes 4 s5 ++ be_bytes 4 s6 ++ be_bytes 4 s7.

End Sha.

(** [a xor b] on bytes. *)
Definition byte_xor (a b : byte) : byte :=
  byte_of_N (N.lxor (N_of_byte a) (N_of_byte b)).

(** [data] xored with the key stream [ks], as far as [ks] reaches. *)
Fixpoint xor_bytes (data ks : bytes) : bytes :=
  match data, ks with
  | d :: data', k :: ks' => byte_xor d k :: xor_bytes data' ks'
  | _, _ => data
  end.

Module Aes.

(** Multiplication by x and by any element in GF(2^8) modulo
    x^8 + x^4 + x^3 + x + 1. *)
Definition xtime (a : N) : N :=
  let b := (2 * a)%N in
  if (b <? 256)%N then b else N.lxor (b - 256) 0x1B.

Fixpoint gmul_bits (n : nat) (a b acc : N) : N :=
  match n with
  | O => acc
  | S k => gmul_bits k (xtime a) (b / 2) (if N.odd b then N.lxor acc a else acc)
  end.

Definition gmul (a b : N) : N := gmul_bits 8 a b 0.

Definition rotl8 (n a : N) : N :=
  (N.lor (N.shiftl a n) (N.shiftr a (8 - n)) mod 256)%N.

(** The S-box: the inverse in the field (a^254), then the affine map. *)
Definition sbox_of (a : N) : N :=
  let i := Nat.iter 253 (gmul a) a in
  N.lxor (N.lxor (N.lxor i (rotl8 1 i)) (N.lxor (rotl8 2 i) (rotl8 3 i)))
         (N.lxor (rotl8 4 i) 0x63).

Definition sbox : list N :=
  Eval vm_compute in map (fun i => sbox_of (N.of_nat i)) (seq 0 256).

Definition sub_byte (a : N) : N := nth (N.to_nat a) sbox 0%N.

Definition xor_words (a b : list N) : list N :=
  map (fun p => N.lxor (fst p) (snd p)) (combine a b).

(** The key schedule, for a key of [nk] words: [n] more words after [ws]. *)
Fixpoint expand (n nk : nat) (ws : list (list N)) : list (list N) :=
  match n with
  | O => ws
  | S k =>
      let i := length ws in
      let prev := nth (i - 1) ws [] in
      let temp :=
        if (i mod nk =? 0)%nat then
          xor_words (map sub_byte (drop 1 prev ++ take 1 prev))
                    [Nat.iter (i / nk - 1) xtime 1%N; 0; 0; 0]%N
        else if ((6 <? nk) && (i mod nk =? 4))%nat then map sub_byte prev
        else prev in
      expand k nk (ws ++ [xor_words (nth (i - nk) ws []) temp])
  end.

Definition round_keys (key : list N) : list N :=
  let nk := (length key / 4)%nat in
  let ws := map (fun i => take 4 (drop (4 * i) key)) (seq 0 nk) in
  concat (expand (4 * (nk + 7) - nk) nk ws).

Definition round_key (rks : list N) (r : nat) : list N :=
  take 16 (drop (16 * r) rks).

(** The state is the block in input order: byte [r + 4c] is row [r] of
    column [c]. *)
Definition shift_rows (s : list N) : list N :=
  map (fun i => nth (i mod 4 + 4 * ((i / 4 + i mod 4) mod 4)) s 0%N) (seq 0 16).

Definition mix_column (col : list N) : list N :=
  let a i := nth i col 0%N in
  let x2 i := xtime (a i) in
  let x3 i := N.lxor (xtime (a i)) (a i) in
  [N.lxor (N.lxor (x2 0) (x3 1)) (N.lxor (a 2) (a 3));
   N.lxor (N.lxor (a 0) (x2 1)) (N.lxor (x3 2) (a 3));
   N.lxor (N.lxor (a 0) (a 1)) (N.lxor (x2 2) (x3 3));
   N.lxor (N.lxor (x3 0) (a 1)) (N.lxor (a 2) (x2 3))]%nat.

Definition mix_columns (s : list N) : list N :=
  concat (map (fun c => mix_column (take 4 (drop (4 * c) s))) (seq 0 4)).

Definition cipher_round (rks : list N) (s : list N) (r : nat) : list N :=
  xor_words (mix_columns (shift_rows (map sub_byte s))) (round_key rks r).

(** The cipher of FIPS 197 on one block, for keys of 16, 24 and 32 bytes. *)
Definition encrypt_block (key block : bytes) : bytes :=
  let k := map N_of_byte key in
  let nr := (length k / 4 + 6)%nat in
  let rks := round_keys k in
  let s0 := xor_words (map N_of_byte block) (round_key rks 0) in
  let s := fold_left (cipher_round rks) (seq 1 (nr - 1)) s0 in
  map byte_of_N (xor_words (shift_rows (map sub_byte s)) (round_key rks nr)).

End Aes.

Module Gcm.

(** Multiplication in GF(2^128) as SP 800-38D orders the bits: bit 0 of
    a block is its most significant bit. *)
Definition gf_step (x : N) (zv : N * N) (i : nat) : N * N :=
  let '(z, v) := zv in
  (if N.testbit x (N.of_nat (127 - i)) then N.lxor z v else z,
   if N.odd v then N.lxor (v / 2) (N.shiftl 0xE1 120) else (v / 2)%N).

Definition gf_mul (x y : N) : N := fst (fold_left (gf_step x) (seq 0 128) (0%N, y)).

Definition ghash (h : N) (blocks : list N) : N :=
  fold_left (fun y x => gf_mul (N.lxor y x) h) blocks 0%N.

(** The 16-byte blocks of [bs] as numbers, the last padded with zeros. *)
Definition blocks_of (bs : bytes) : list N :=
  map (fun c => be_value (c ++ repeat x00 (16 - length c))) (chunks 16 bs).

Definition bit_length (bs : bytes) : N := (8 * N.of_nat (length bs))%N.

Definition hash_key (key : bytes) : N :=
  be_value (Aes.encrypt_block key (repeat x00 16)).

(** The pre-counter block J0. *)
Definition j0 (key iv : bytes) : N :=
  if (length iv =? 12)%nat then be_value (iv ++ [x00; x00; x00; x01])
  else ghash (hash_key key) (blocks_of iv ++ [bit_length iv]).

Definition inc32 (i : N) (x : N) : N :=
  (x / 2 ^ 32 * 2 ^ 32 + (x + i) mod 2 ^ 32)%N.

Definition key_stream (key : bytes) (icb : N) (nblocks : nat) : bytes :=
  concat (map (fun i => Aes.encrypt_block key (be_bytes 16 (inc32 (N.of_nat i) icb)))
              (seq 0 nblocks)).

Definition gctr (key : bytes) (icb : N) (data : bytes) : bytes :=
  xor_bytes data (key_stream key icb ((length data + 15) / 16)).

(** The tag over the associated data and the ciphertext. *)
Definition tag (key iv aad cipher : bytes) : bytes :=
  let s := ghash (hash_key key)
                 (blocks_of aad ++ blocks_of cipher
                    ++ [bit_length aad * 2 ^ 64 + bit_length cipher]%N) in
  xor_bytes (be_bytes 16 s) (Aes.encrypt_block key (be_bytes 16 (j0 key iv))).

Definition encrypt (key iv data aad : bytes) : bytes :=
  let cipher := gctr key (inc32 1 (j0 key iv)) data in
  cipher ++ tag key iv aad cipher.

Definition decrypt (key iv input aad : bytes) : option bytes :=
  let n := (length input - 16)%nat in
  let cipher := take n input in
  if bool_decide (drop n input = tag key iv aad cipher)
  then Some (gctr key (inc32 1 (j0 key iv)) cipher)
  else None.

End Gcm.

(** * Properties *)

(** ** Strings *)

Lemma startswith_app (p s : string) : startswith p (p ++ s) = true.
Proof.
  induction p as [|a p IH]; simpl; [reflexivity|].
  rewrite Ascii.eqb_refl. exact IH.
Qed.

Lemma startswith_inv (p s : string) :
  startswith p s = true -> exists r, s = (p ++ r)%string.
Proof.
  revert s. induction p as [|a p IH]; intros s Hs; simpl in *.
  - exists s. reflexivity.
  - destruct s as [|c s]; [discriminate|].
    destruct (Ascii.eqb_spec a c) as [->|]; [|discriminate].
    destruct (IH _ Hs) as [r ->]. exists r. reflexivity.
Qed.

Lemma str_cons_app (x : ascii) (a b : string) :
  (String x a ++ b)%string = String x (a ++ b).
Proof. reflexivity. Qed.

Lemma str_nil_app (b : string) : (EmptyString ++ b)%string = b.
Proof. reflexivity. Qed.

Lemma str_app_assoc (a b c : string) : ((a ++ b) ++ c = a ++ (b ++ c))%string.
Proof.
  induction a as [|x a IH]; [reflexivity|].
  rewrite !str_cons_app. now rewrite IH.
Qed.

Lemma str_app_nil_r (a : string) : (a ++ "")%string = a.
Proof.
  induction a as [|x a IH]; [reflexivity|].
  rewrite str_cons_app. now rewrite IH.
Qed.

Lemma str_take_app (a r : string) : str_take (String.length a) (a ++ r) = a.
Proof.
  induction a as [|x a IH]; [now destruct r|].
  rewrite str_cons_app. simpl. now rewrite IH.
Qed.

Lemma str_drop_app (a r : string) : str_drop (String.length a) (a ++ r) = r.
Proof.
  induction a as [|x a IH]; [now destruct r|].
  rewrite str_cons_app. simpl. exact IH.
Qed.

Lemma str_take_drop (n : nat) (s : string) : (str_take n s ++ str_drop n s)%string = s.
Proof.
  revert s. induction n as [|n IH]; intros [|c s]; try reflexivity.
  simpl. rewrite str_cons_app. now rewrite IH.
Qed.

Lemma str_take_length (n : nat) (s : string) :
  n <= String.length s -> String.length (str_take n s) = n.
Proof.
  revert s. induction n as [|n IH]; intros [|c s]; simpl; intros Hn;
    try reflexivity; try lia.
  rewrite IH; [reflexivity | lia].
Qed.

Lemma str_drop_length (n : nat) (s : string) :
  String.length (str_drop n s) = String.length s - n.
Proof.
  revert s. induction n as [|n IH]; intros [|c s]; simpl; try reflexivity.
  apply IH.
Qed.

Lemma str_app_length (a b : string) :
  String.length (a ++ b) = String.length a + String.length b.
Proof.
  induction a as [|x a IH]; [reflexivity|].
  rewrite str_cons_app. simpl. now rewrite IH.
Qed.

Lemma occurs_cons (sep : string) (c : ascii) (s : string) :
  occurs sep s -> occurs sep (String c s).
Proof. intros (a & r & ->). exists (String c a), r. reflexivity. Qed.

Lemma rfind_from_absent (sep : string) (i : nat) (s : string) :
  sep <> EmptyString -> ~ occurs sep s -> rfind_from sep i s = None.
Proof.
  intros Hsep. revert i. induction s as [|c s IH]; intros i Hno; simpl.
  - destruct sep; [congruence | reflexivity].
  - rewrite IH by (intros Ho; apply Hno, occurs_cons, Ho).
    destruct (startswith sep (String c s)) eqn:Hst; [|reflexivity].
    exfalso. apply Hno. destruct (startswith_inv _ _ Hst) as [r Hr].
    exists EmptyString, r. exact Hr.
Qed.

Lemma rfind_from_last (sep : string) (c : ascii) (sep' a b : string) (i : nat) :
  sep = String c sep' ->
  (forall k, rfind_from sep k (sep' ++ b) = None) ->
  rfind_from sep i (a ++ sep ++ b) = Some (i + String.length a).
Proof.
  intros -> Hlater. revert i. induction a as [|x a IH]; intros i.
  - rewrite str_nil_app, str_cons_app. cbn [rfind_from]. rewrite Hlater.
    rewrite <- str_cons_app, startswith_app. f_equal. simpl. lia.
  - rewrite str_cons_app. cbn [rfind_from]. rewrite IH. f_equal. simpl. lia.
Qed.

Lemma rfind_yjch_tail (b : string) (k : nat) :
  ~ occurs ".yjch" b -> rfind_from ".yjch" k ("yjch" ++ b) = None.
Proof.
  intros Hno. rewrite !str_cons_app, str_nil_app. cbn [rfind_from].
  rewrite (rfind_from_absent ".yjch" _ b) by (congruence || exact Hno).
  reflexivity.
Qed.

Lemma output_default_last (a b : string) :
  ~ occurs ".yjch" b -> output_default (a ++ ".yjch" ++ b) = a.
Proof.
  intros Hno. unfold output_default, rsplit1, rfind.
  rewrite (rfind_from_last ".yjch" "." "yjch" a b 0 eq_refl)
    by (intros k; apply rfind_yjch_tail, Hno).
  simpl. apply str_take_app.
Qed.

Lemma output_default_absent (path : string) :
  ~ occurs ".yjch" path -> output_default path = path.
Proof.
  intros Hno. unfold output_default, rsplit1, rfind.
  rewrite rfind_from_absent by (congruence || exact Hno). reflexivity.
Qed.

(** ** Container detection *)

Lemma next_fault_run (w : World) :
  next_fault w = (Ok (pending_fault w), with_open_faults (tl (open_faults w)) w).
Proof.
  unfold next_fault, pending_fault. destruct w as [? ? ? [|f o] ? ? ? ? ?]; reflexivity.
Qed.

Lemma open_rb_run (path : string) (w : World) :
  open_rb path w =
  let w' := with_open_faults (tl (open_faults w)) w in
  match pending_fault w with
  | Some e => (Raise e, w')
  | None =>
      match fs w !! path with
      | Some (File data) => (Ok (mkReader data 0), w')
      | Some Dir => (Raise IsADirectoryError, w')
      | None => (Raise FileNotFoundError, w')
      end
  end.
Proof.
  unfold open_rb, bind. rewrite next_fault_run.
  destruct (pending_fault w); reflexivity.
Qed.

Lemma is_already_encrypted_run (path : string) (w : World) :
  _is_already_encrypted path w =
  let w' := with_open_faults (tl (open_faults w)) w in
  let missing :=
    (Ok false,
     with_terminal
       (terminal w ++ [Printed ("[red]Fichier introuvable : " ++ path ++ "[/red]")]) w') in
  match pending_fault w with
  | Some FileNotFoundError => missing
  | Some e => (Raise e, w')
  | None =>
      match fs w !! path with
      | Some (File data) => (Ok (bool_decide (take 8 data = HEADER_SIGNATURE)), w')
      | Some Dir => (Raise IsADirectoryError, w')
      | None => missing
      end
  end.
Proof.
  unfold _is_already_encrypted, try_except, bind. rewrite open_rb_run.
  destruct (pending_fault w) as [[]|]; try reflexivity.
  destruct (fs w !! path) as [[|data]|]; reflexivity.
Qed.

(** C3, as the code has it: when [open] succeeds or finds no file, the
    probe does not raise, leaves the file system alone and answers true
    exactly when the file exists and its first 8 bytes are the signature
    (so it answers false for a missing file and for a file shorter than 8
    bytes); any other failure of [open] (permission denied, a directory)
    is not caught and leaves the probe as that exception. *)
Theorem is_already_encrypted_exact (path : string) (w : World) :
  (pending_fault w = None \/ pending_fault w = Some FileNotFoundError ->
   fs w !! path <> Some Dir ->
   exists b w',
     _is_already_encrypted path w = (Ok b, w') /\
     fs w' = fs w /\
     (b = true <->
      exists data,
        pending_fault w = None /\ fs w !! path = Some (File data) /\
        take 8 data = HEADER_SIGNATURE) /\
     (fs w !! path = None -> b = false) /\
     (forall data, fs w !! path = Some (File data) -> length data < 8 -> b = false))
  /\
  (forall e,
     e <> FileNotFoundError ->
     pending_fault w = Some e \/
     (pending_fault w = None /\ fs w !! path = Some Dir /\ e = IsADirectoryError) ->
     exists w', _is_already_encrypted path w = (Raise e, w') /\ fs w' = fs w).
Proof.
  rewrite is_already_encrypted_run. cbv zeta. split.
  - intros Hfault Hdir.
    destruct Hfault as [-> | ->].
    + destruct (fs w !! path) as [[|data]|] eqn:Hfs; [congruence | |].
      * eexists _, _. split; [reflexivity|]. split; [reflexivity|].
        split; [|split].
        -- rewrite bool_decide_eq_true. split.
           ++ intros Hsig. exists data. auto.
           ++ intros (d & _ & [= <-] & Hsig). exact Hsig.
        -- discriminate.
        -- intros d [= <-] Hlen. apply bool_decide_eq_false. intros Hsig.
           apply (f_equal length) in Hsig. rewrite length_take in Hsig.
           change (length HEADER_SIGNATURE) with 8 in Hsig. lia.
      * eexists _, _. split; [reflexivity|]. split; [reflexivity|].
        split; [|split]; try reflexivity.
        split; [discriminate|]. intros (d & _ & [=] & _).
    + eexists _, _. split; [reflexivity|]. split; [reflexivity|].
      split; [|split]; try reflexivity.
      split; [discriminate|]. intros (d & [=] & _).
  - intros e Hne [-> | (-> & -> & ->)].
    + destruct e; try congruence; eexists; split; reflexivity.
    + eexists; split; reflexivity.
Qed.

(** ** The breach-check client *)

Lemma str_forall_app (p : ascii -> bool) (a b : string) :
  str_forall p (a ++ b) = str_forall p a && str_forall p b.
Proof.
  induction a as [|x a IH]; [reflexivity|].
  rewrite str_cons_app. simpl. rewrite IH. now rewrite andb_assoc.
Qed.

Lemma str_forall_take (p : ascii -> bool) (n : nat) (s : string) :
  str_forall p s = true -> str_forall p (str_take n s) = true.
Proof.
  revert s. induction n as [|n IH]; intros [|c s]; simpl; try reflexivity.
  intros [Hc Hs]%andb_true_iff. rewrite Hc. now apply IH.
Qed.

Lemma str_forall_drop (p : ascii -> bool) (n : nat) (s : string) :
  str_forall p s = true -> str_forall p (str_drop n s) = true.
Proof.
  revert s. induction n as [|n IH]; intros [|c s]; simpl; try reflexivity;
    try (intros Hs; exact Hs).
  intros [Hc Hs]%andb_true_iff. now apply IH.
Qed.

Lemma str_forall_get (p : ascii -> bool) (s : string) (i : nat) (c : ascii) :
  str_forall p s = true -> str_get i s = Some c -> p c = true.
Proof.
  revert i. induction s as [|x s IH]; intros i; simpl; [intros _ [=]|].
  intros [Hx Hs]%andb_true_iff. destruct i as [|i].
  - now intros [= <-].
  - now apply IH.
Qed.

Lemma str_get_app_r (a b : string) (i : nat) :
  str_get (String.length a + i) (a ++ b) = str_get i b.
Proof.
  induction a as [|x a IH]; [reflexivity|].
  rewrite str_cons_app. exact IH.
Qed.

Lemma str_get_app_l (a b : string) (i : nat) :
  i < String.length a -> str_get i (a ++ b) = str_get i a.
Proof.
  revert i. induction a as [|x a IH]; intros i Hi; simpl in Hi; [lia|].
  rewrite str_cons_app. destruct i as [|i]; [reflexivity|].
  simpl. apply IH. lia.
Qed.

Lemma str_get_in_range (s : string) (i : nat) :
  i < String.length s -> exists c, str_get i s = Some c.
Proof.
  revert i. induction s as [|x s IH]; intros i Hi; simpl in Hi; [lia|].
  destruct i as [|i]; simpl; [eauto|]. apply IH. lia.
Qed.

Lemma str_rev_onto_app (acc s : string) :
  str_rev_onto acc s = (str_rev s ++ acc)%string.
Proof.
  unfold str_rev. revert acc. induction s as [|c s IH]; intros acc; [reflexivity|].
  simpl. rewrite (IH (String c EmptyString)), IH, str_app_assoc. reflexivity.
Qed.

Lemma str_rev_cons (c : ascii) (s : string) :
  str_rev (String c s) = (str_rev s ++ String c EmptyString)%string.
Proof. unfold str_rev at 1. simpl. apply str_rev_onto_app. Qed.

(** [line.split(":")[0]] is the text of the line before its first colon. *)
Lemma split_colon_item0 (line : string) :
  item0 (split ":" line) = before ":" line.
Proof.
  unfold split, item0.
  enough (Hgen : forall cur,
             hd EmptyString (split_from ":" 0 cur line)
             = (str_rev cur ++ before ":" line)%string)
    by (rewrite Hgen; reflexivity).
  induction line as [|c s IH]; intros cur.
  - simpl. now rewrite str_app_nil_r.
  - cbn [split_from startswith before].
    destruct (Ascii.eqb ":" c).
    + simpl. now rewrite str_app_nil_r.
    + rewrite IH, str_rev_cons, str_app_assoc. reflexivity.
Qed.

Lemma before_field (c : ascii) (f line : string) :
  str_forall (fun x => negb (Ascii.eqb c x)) f = true ->
  before c line = f <->
  line = f \/ exists rest, line = (f ++ String c rest)%string.
Proof.
  revert line. induction f as [|a f IH]; intros line Hf.
  - destruct line as [|x l]; simpl.
    + split; [auto | reflexivity].
    + destruct (Ascii.eqb_spec c x) as [->|Hne].
      * split; [|reflexivity]. intros _. right. exists l. reflexivity.
      * split; [discriminate|]. intros [[=] | [rest [= Hx _]]]. congruence.
  - simpl in Hf. apply andb_true_iff in Hf as [Ha Hf].
    apply negb_true_iff in Ha. apply Ascii.eqb_neq in Ha.
    destruct line as [|x l]; simpl.
    + split; [discriminate|]. intros [[=] | [rest [=]]].
    + destruct (Ascii.eqb_spec c x) as [->|Hne].
      * split; [discriminate|]. intros [[= Hx _] | [rest [= Hx _]]]; congruence.
      * specialize (IH l Hf). split.
        -- intros [= -> Hb]. apply IH in Hb as [-> | [rest ->]]; [auto|].
           right. exists rest. reflexivity.
        -- intros [[= -> ->] | [rest [= -> ->]]]; f_equal; apply IH; eauto.
Qed.

Lemma upper_app (a b : string) : upper (a ++ b) = (upper a ++ upper b)%string.
Proof.
  induction a as [|x a IH]; [reflexivity|].
  rewrite str_cons_app. simpl. now rewrite IH.
Qed.

Lemma upper_hex_of_byte (b : byte) :
  String.length (upper (hex_of_byte b)) = 2 /\
  str_forall is_upper_hex (upper (hex_of_byte b)) = true.
Proof. destruct b; split; reflexivity. Qed.

Lemma upper_hexlify (bs : bytes) :
  String.length (upper (hexlify bs)) = 2 * length bs /\
  str_forall is_upper_hex (upper (hexlify bs)) = true.
Proof.
  induction bs as [|b bs [IHl IHf]]; [split; reflexivity|].
  cbn [hexlify]. rewrite upper_app, str_app_length, str_forall_app.
  destruct (upper_hex_of_byte b) as [-> ->]. rewrite IHl, IHf.
  split; [simpl; lia | reflexivity].
Qed.

Lemma upper_hex_no_colon (s : string) :
  str_forall is_upper_hex s = true ->
  str_forall (fun x => negb (Ascii.eqb ":" x)) s = true.
Proof.
  induction s as [|c s IH]; cbn [str_forall]; [reflexivity|].
  intros [Hc Hs]%andb_true_iff. rewrite (IH Hs), andb_true_r.
  destruct (Ascii.eqb_spec ":" c) as [<-|]; [discriminate | reflexivity].
Qed.

Section BreachCheck.
Context `{CryptoLib}.

Lemma check_password_pwned_run (password : string) (w : World) :
  _check_password_pwned password w =
  let suffix := str_drop 5 (sha1_hex_upper password) in
  let w1 := requested password w in
  match net w (pwned_url (str_take 5 (sha1_hex_upper password))) with
  | Unreachable =>
      (Ok false, warned "[red]Erreur de connexion à l'API HaveIBeenPwned[/red]" w1)
  | Response code text =>
      if bool_decide (code = 200%Z)
      then (Ok (bool_decide
                  (suffix ∈ map (fun line => item0 (split ":" line)) (splitlines text))),
            w1)
      else (Ok false, warned "[red]Erreur API HaveIBeenPwned[/red]" w1)
  end.
Proof.
  unfold _check_password_pwned, try_except, bind, requests_get, requested.
  destruct (net w _) as [|code text]; [reflexivity|].
  cbv zeta. destruct (decide (code = 200%Z)) as [->|Hne].
  - reflexivity.
  - rewrite (bool_decide_eq_true_2 (code <> 200%Z)) by exact Hne.
    rewrite (bool_decide_eq_false_2 (code = 200%Z)) by exact Hne.
    reflexivity.
Qed.

Lemma sha1_hex_upper_shape (password : string) :
  String.length (sha1_hex_upper password) = 40 /\
  str_forall is_upper_hex (sha1_hex_upper password) = true.
Proof.
  unfold sha1_hex_upper.
  destruct (upper_hexlify (sha1 (encode_utf8 password))) as [Hl Hf].
  rewrite sha1_length in Hl. split; [exact Hl | exact Hf].
Qed.

(** C6, as the code has it: the upper-case hexadecimal SHA-1 of the
    password has 40 characters and splits into a prefix of 5 and a suffix
    of 35; on a 200 response for that prefix the client answers true
    exactly when some line of the response, as [splitlines] cuts it (at
    every boundary of [line_break], not at newlines only), is the suffix
    followed by a colon and the rest of the record, or is the suffix alone
    (a line without a colon being its own first field). *)
Theorem check_password_pwned_membership (password text : string) (w : World) :
  let sha1_pw := sha1_hex_upper password in
  let prefix := str_take 5 sha1_pw in
  let suffix := str_drop 5 sha1_pw in
  net w (pwned_url prefix) = Response 200 text ->
  String.length sha1_pw = 40 /\
  str_forall is_upper_hex sha1_pw = true /\
  String.length prefix = 5 /\
  String.length suffix = 35 /\
  sha1_pw = (prefix ++ suffix)%string /\
  exists breached w',
    _check_password_pwned password w = (Ok breached, w') /\
    (breached = true <->
     exists line,
       line ∈ splitlines text /\
       (line = suffix \/ exists count, line = (suffix ++ ":" ++ count)%string)).
Proof.
  intros sha1_pw prefix suffix Hnet.
  destruct (sha1_hex_upper_shape password) as [Hlen Hhex].
  fold sha1_pw in Hlen, Hhex.
  split; [exact Hlen|]. split; [exact Hhex|].
  split; [unfold prefix; rewrite str_take_length; lia|].
  split; [unfold suffix; rewrite str_drop_length; lia|].
  split; [unfold prefix, suffix; now rewrite str_take_drop|].
  rewrite check_password_pwned_run. cbv zeta. fold sha1_pw prefix suffix.
  rewrite Hnet. rewrite bool_decide_eq_true_2 by reflexivity.
  eexists _, _. split; [reflexivity|].
  rewrite bool_decide_eq_true, list_elem_of_fmap.
  assert (Hcolon : str_forall (fun x => negb (Ascii.eqb ":" x)) suffix = true)
    by (apply upper_hex_no_colon, str_forall_drop, Hhex).
  split.
  - intros (line & Hfield & Hin). exists line. split; [exact Hin|].
    rewrite split_colon_item0 in Hfield. symmetry in Hfield.
    apply (before_field ":" suffix line Hcolon) in Hfield. exact Hfield.
  - intros (line & Hin & Hfield). exists line. split; [|exact Hin].
    rewrite split_colon_item0. symmetry.
    apply (before_field ":" suffix line Hcolon). exact Hfield.
Qed.

(** No character before the prefix in the request is an upper-case
    hexadecimal digit, so hexadecimal text longer than the prefix is no
    part of the URL. *)
Lemma hex_in_url_short (part prefix : string) :
  part <> EmptyString ->
  str_forall is_upper_hex part = true ->
  occurs part (pwned_url prefix) ->
  String.length part <= String.length prefix.
Proof.
  intros Hne Hhex (a & c & Hurl). unfold pwned_url in Hurl.
  set (base := "https://api.pwnedpasswords.com/range/") in Hurl.
  destruct (Nat.lt_ge_cases (String.length a) (String.length base)) as [Hlt|Hge].
  - exfalso.
    destruct (str_get_in_range base _ Hlt) as [x Hx].
    assert (Hbase : str_forall (fun y => negb (is_upper_hex y)) base = true)
      by reflexivity.
    pose proof (str_forall_get _ _ _ _ Hbase Hx) as Hnot.
    pose proof (str_get_app_l base prefix _ Hlt) as Hl.
    rewrite Hurl, Hx in Hl.
    rewrite <- (Nat.add_0_r (String.length a)), str_get_app_r in Hl.
    destruct part as [|y part]; [congruence|].
    rewrite str_cons_app in Hl. simpl in Hl. injection Hl as Heq. subst.
    cbn [str_forall] in Hhex. apply andb_true_iff in Hhex as [Hy _].
    simpl in Hnot. rewrite Hy in Hnot. discriminate.
  - apply (f_equal String.length) in Hurl.
    rewrite !str_app_length in Hurl. lia.
Qed.

(** C2: the breach check issues exactly one request, to the range URL of
    the 5-character prefix; neither the 35-character suffix nor the full
    hash is part of that URL; and the request is the same for any two
    passwords with the same prefix, so nothing else derived from the
    password (the password itself, the rest of its hash) leaves. *)
Theorem check_password_pwned_sends_prefix (password : string) (w : World) :
  let sha1_pw := sha1_hex_upper password in
  let prefix := str_take 5 sha1_pw in
  sent (snd (_check_password_pwned password w)) = sent w ++ [pwned_url prefix] /\
  ~ occurs (str_drop 5 sha1_pw) (pwned_url prefix) /\
  ~ occurs sha1_pw (pwned_url prefix) /\
  forall other,
    str_take 5 (sha1_hex_upper other) = prefix ->
    sent (snd (_check_password_pwned other w))
    = sent (snd (_check_password_pwned password w)).
Proof.
  intros sha1_pw prefix.
  destruct (sha1_hex_upper_shape password) as [Hlen Hhex].
  fold sha1_pw in Hlen, Hhex.
  assert (Hprefix : String.length prefix = 5)
    by (unfold prefix; rewrite str_take_length; lia).
  assert (Hsent : forall p,
             sent (snd (_check_password_pwned p w))
             = sent w ++ [pwned_url (str_take 5 (sha1_hex_upper p))]).
  { intros p. rewrite check_password_pwned_run. cbv zeta.
    destruct (net w _) as [|code text]; [reflexivity|].
    destruct (bool_decide (code = 200%Z)); reflexivity. }
  split; [apply Hsent|]. split; [|split].
  - intros Hocc. apply hex_in_url_short in Hocc.
    + rewrite str_drop_length in Hocc. lia.
    + intros Hnil. apply (f_equal String.length) in Hnil.
      rewrite str_drop_length in Hnil. simpl in Hnil. lia.
    + apply str_forall_drop, Hhex.
  - intros Hocc. apply hex_in_url_short in Hocc.
    + lia.
    + intros Hnil. rewrite Hnil in Hlen. discriminate.
    + exact Hhex.
  - intros other Hother. rewrite !Hsent. fold sha1_pw prefix.
    now rewrite Hother.
Qed.

(** [_ask_password_and_verify] on a non-empty password the breach check
    does not flag: the password is accepted at once. *)
Lemma ask_password_and_verify_accepts (fuel : nat) (password : string)
      (rest : list (option string)) (w w1 : World) :
  typed w = Some password :: rest ->
  password <> EmptyString ->
  _check_password_pwned password
    (with_typed rest (with_terminal (terminal w ++ [Asked "Mot de passe"]) w))
  = (Ok false, w1) ->
  _ask_password_and_verify (S fuel) w = (Ok password, w1).
Proof.
  intros Htyped Hne Hcheck.
  cbn [_ask_password_and_verify]. unfold bind at 1.
  unfold _ask_password, prompt_text. rewrite Htyped.
  unfold falsy. rewrite bool_decide_eq_false_2 by exact Hne.
  unfold bind at 1. rewrite Hcheck. reflexivity.
Qed.

(** C4, as the code has it: on a transport error or a status other than
    200 the breach check prints a warning and returns [False]; that is
    the value it returns for a 200 response that lists no matching suffix,
    so the caller cannot tell a failed query from a clean one; a non-empty
    password is then accepted without any further question and the file
    system is untouched. *)
Theorem check_password_pwned_fail_open (fuel : nat) (password : string) (w : World) :
  let sha1_pw := sha1_hex_upper password in
  let url := pwned_url (str_take 5 sha1_pw) in
  net w url = Unreachable \/
  (exists code text, net w url = Response code text /\ code <> 200%Z) ->
  (exists msg,
     _check_password_pwned password w
     = (Ok false, warned msg (requested password w))) /\
  (forall clean,
     net clean url = Response 200%Z EmptyString ->
     fst (_check_password_pwned password clean)
     = fst (_check_password_pwned password w)) /\
  (forall rest,
     password <> EmptyString ->
     typed w = Some password :: rest ->
     exists w',
       _ask_password_and_verify (S fuel) w = (Ok password, w') /\
       confirms w' = confirms w /\ fs w' = fs w /\ typed w' = rest).
Proof.
  intros sha1_pw url Hfail.
  assert (Hrun : forall w0,
             net w0 url = net w url ->
             exists msg,
               _check_password_pwned password w0
               = (Ok false, warned msg (requested password w0))).
  { intros w0 Hnet. rewrite check_password_pwned_run. cbv zeta.
    fold sha1_pw url. rewrite Hnet.
    destruct Hfail as [-> | (code & text & -> & Hcode)].
    - eexists. reflexivity.
    - rewrite bool_decide_eq_false_2 by exact Hcode. eexists. reflexivity. }
  split; [apply Hrun; reflexivity|]. split.
  - intros clean Hclean.
    destruct (Hrun w eq_refl) as [msg ->].
    rewrite check_password_pwned_run. cbv zeta. fold sha1_pw url.
    rewrite Hclean. reflexivity.
  - intros rest Hne Htyped.
    destruct (Hrun (with_typed rest
                      (with_terminal (terminal w ++ [Asked "Mot de passe"]) w))
                   eq_refl) as [msg Hcheck].
    eexists. split; [eapply ask_password_and_verify_accepts; eassumption|].
    repeat split; reflexivity.
Qed.

End BreachCheck.

(** ** The encrypt and decrypt blocks *)

Section Workflow.
Context `{CryptoLib}.

Lemma next_iv_length (w : World) : length (next_iv w) = 12.
Proof. unfold next_iv. now rewrite length_map, length_seq. Qed.

Lemma AESGCM_derived (password : string) (w : World) :
  AESGCM (_derive_key password) w = (Ok (_derive_key password), w).
Proof.
  unfold AESGCM, _derive_key. rewrite sha256_length. reflexivity.
Qed.

Lemma open_wb_run (path : string) (w : World) :
  open_wb path w =
  let w' := with_open_faults (tl (open_faults w)) w in
  match pending_fault w with
  | Some e => (Raise e, w')
  | None =>
      match fs w !! path with
      | Some Dir => (Raise IsADirectoryError, w')
      | _ => (Ok tt, with_fs (<[path := File []]> (fs w)) w')
      end
  end.
Proof.
  unfold open_wb, bind. rewrite next_fault_run.
  destruct (pending_fault w); reflexivity.
Qed.

(** Opening for writing and writing the pieces leaves the file holding
    their concatenation. *)
Lemma write_after_open (path : string) (old new : bytes) (w : World) :
  fs w !! path = Some (File old) ->
  write path new w = (Ok tt, with_fs (<[path := File (old ++ new)]> (fs w)) w).
Proof. intros Hfs. unfold write. now rewrite Hfs. Qed.

Lemma encrypt_to_run (path output_path password : string) (data : bytes) (w : World) :
  fs w !! path = Some (File data) ->
  open_faults w = [] ->
  fs w !! output_path <> Some Dir ->
  encrypt_to path output_path password w =
  (Ok tt,
   with_fs (<[output_path := File (container_of password data w)]> (fs w))
           (with_drawn (drawn w + IV_LEN) w)).
Proof.
  intros Hfs Hfaults Hdir.
  unfold encrypt_to. unfold bind at 1. unfold os_urandom. fold (next_iv w).
  unfold bind at 1. rewrite AESGCM_derived.
  unfold bind at 1. unfold os_path_getsize. cbn [fs with_drawn]. rewrite Hfs.
  unfold bind at 1. rewrite open_rb_run. unfold pending_fault.
  cbn [open_faults fs with_drawn]. rewrite Hfaults, Hfs. cbn [hd tl]. cbv zeta.
  unfold bind at 1. unfold aesgcm_encrypt, nonce_ok. rewrite next_iv_length.
  cbn [bool_decide decide_rel]. rewrite bool_decide_eq_true_2 by lia.
  unfold ret at 1.
  unfold bind at 1. rewrite open_wb_run. unfold pending_fault.
  cbn [open_faults fs with_open_faults with_drawn hd tl]. cbv zeta.
  destruct (fs w !! output_path) as [[|old]|] eqn:Hout; [congruence| |].
  all: unfold bind at 1; erewrite write_after_open
         by (cbn [fs with_fs]; apply lookup_insert_eq);
       unfold bind at 1; erewrite write_after_open
         by (cbn [fs with_fs]; apply lookup_insert_eq);
       erewrite write_after_open
         by (cbn [fs with_fs]; apply lookup_insert_eq);
       cbn [fs with_fs]; rewrite !insert_insert_eq;
       unfold container_of, read_all; cbn [fst r_data r_pos drop];
       rewrite <- Hfaults; destruct w; cbn; rewrite <- ?app_assoc; reflexivity.
Qed.

(** What the decrypt block reads behind the signature. *)
Lemma read_container (data : bytes) :
  let fin := seek HEADER_LEN (mkReader data 0) in
  let '(iv, fin) := read IV_LEN fin in
  (iv, fst (read_all fin)) = (take 12 (drop 8 data), drop 20 data).
Proof.
  cbn. f_equal. rewrite length_take, length_drop.
  destruct (Nat.le_gt_cases 20 (length data)) as [Hlong|Hshort].
  - f_equal. lia.
  - rewrite !drop_ge by lia. reflexivity.
Qed.

(** The decrypt block either writes the plaintext that passed the tag
    check, or raises and leaves the file system as it was. *)
Lemma decrypt_to_outcome (path output_path : string) (key : bytes)
      (w w' : World) (r : res unit) :
  decrypt_to path output_path key w = (r, w') ->
  (r = Ok tt /\
   exists data plain,
     fs w !! path = Some (File data) /\
     gcm_decrypt key (take 12 (drop 8 data)) (drop 20 data) = Some plain /\
     fs w' = <[output_path := File plain]> (fs w)) \/
  (exists e, r = Raise e /\ fs w' = fs w).
Proof.
  unfold decrypt_to. unfold bind at 1. rewrite open_rb_run. cbv zeta.
  destruct (pending_fault w) as [e|];
    [intros [= <- <-]; right; eexists; split; reflexivity|].
  destruct (fs w !! path) as [[|data]|] eqn:Hfs;
    try (intros [= <- <-]; right; eexists; split; reflexivity).
  pose proof (read_container data) as Hread. cbv zeta in Hread.
  destruct (read IV_LEN (seek HEADER_LEN (mkReader data 0))) as [iv fin].
  assert (Hrest : fst (read_all fin) = drop 20 data) by congruence.
  assert (Hiv : iv = take 12 (drop 8 data)) by congruence.
  rewrite Hrest. subst iv. clear Hread Hrest.
  unfold bind at 1. unfold AESGCM.
  destruct (bool_decide (length key ∈ [16; 24; 32]));
    [|intros [= <- <-]; right; eexists; split; reflexivity].
  unfold ret at 1. unfold bind at 1. unfold aesgcm_decrypt.
  destruct (nonce_ok _); [|intros [= <- <-]; right; eexists; split; reflexivity].
  destruct (bool_decide (length (drop 20 data) < 16));
    [intros [= <- <-]; right; eexists; split; reflexivity|].
  destruct (gcm_decrypt key _ _) as [plain|] eqn:Hdec;
    [|intros [= <- <-]; right; eexists; split; reflexivity].
  unfold ret at 1. unfold bind at 1. rewrite open_wb_run. cbv zeta.
  unfold pending_fault. cbn [open_faults fs with_open_faults].
  destruct (hd None (tl (open_faults w))) as [e|];
    [intros [= <- <-]; right; eexists; split; reflexivity|].
  destruct (fs w !! output_path) as [[|old]|] eqn:Hout;
    [intros [= <- <-]; right; eexists; split; reflexivity| |].
  all: erewrite write_after_open by (cbn [fs with_fs]; apply lookup_insert_eq);
       intros [= <- <-]; left; split; [reflexivity|]; exists data, plain;
       split; [reflexivity|]; split; [exact Hdec|];
       cbn [fs with_fs]; now rewrite insert_insert_eq.
Qed.

Lemma decrypt_to_run (path output_path : string) (key iv enc plain : bytes)
      (w : World) :
  fs w !! path = Some (File (HEADER_SIGNATURE ++ iv ++ enc)) ->
  open_faults w = [] ->
  length key = 32 -> length iv = 12 -> 16 <= length enc ->
  gcm_decrypt key iv enc = Some plain ->
  fs w !! output_path <> Some Dir ->
  decrypt_to path output_path key w =
  (Ok tt, with_fs (<[output_path := File plain]> (fs w)) w).
Proof.
  intros Hfs Hfaults Hkey Hiv Henc Hdec Hdir.
  unfold decrypt_to. unfold bind at 1. rewrite open_rb_run. cbv zeta.
  unfold pending_fault. rewrite Hfaults, Hfs. cbn [hd tl].
  pose proof (read_container (HEADER_SIGNATURE ++ iv ++ enc)) as Hread.
  cbv zeta in Hread.
  destruct (read IV_LEN (seek HEADER_LEN _)) as [iv' fin].
  assert (Hrest : fst (read_all fin) = drop 20 (HEADER_SIGNATURE ++ iv ++ enc))
    by congruence.
  assert (Hiv0 : iv' = take 12 (drop 8 (HEADER_SIGNATURE ++ iv ++ enc)))
    by congruence.
  rewrite Hrest. subst iv'. clear Hread Hrest.
  assert (Hiv' : take 12 (drop 8 (HEADER_SIGNATURE ++ iv ++ enc)) = iv).
  { rewrite (drop_app_length' _ _ 8) by reflexivity.
    now apply take_app_length'. }
  assert (Henc' : drop 20 (HEADER_SIGNATURE ++ iv ++ enc) = enc).
  { rewrite app_assoc. apply drop_app_length'. rewrite length_app, Hiv. reflexivity. }
  rewrite Hiv', Henc'.
  unfold bind at 1. unfold AESGCM. rewrite Hkey. cbn [bool_decide decide_rel].
  rewrite bool_decide_eq_true_2 by (repeat constructor).
  unfold ret at 1. unfold bind at 1. unfold aesgcm_decrypt, nonce_ok. rewrite Hiv.
  rewrite bool_decide_eq_true_2 by lia.
  rewrite bool_decide_eq_false_2 by lia. rewrite Hdec.
  unfold ret at 1. unfold bind at 1. rewrite open_wb_run. cbv zeta.
  unfold pending_fault. cbn [open_faults fs with_open_faults tl hd].
  destruct (fs w !! output_path) as [[|old]|] eqn:Hout; [congruence| |].
  all: erewrite write_after_open by (cbn [fs with_fs]; apply lookup_insert_eq);
       cbn [fs with_fs]; rewrite insert_insert_eq;
       rewrite <- Hfaults; destruct w; reflexivity.
Qed.

(** C7: the encrypt block leaves at the output path the concatenation
    of the signature, the 12-byte nonce and the ciphertext with its tag:
    8 + 12 + len(data) + 16 bytes, the signature at offset 0, the nonce at
    offset 8 and the output of the cipher from offset 20. *)
Theorem encrypt_to_layout (path output_path password : string) (data : bytes)
        (w : World) :
  fs w !! path = Some (File data) ->
  open_faults w = [] ->
  fs w !! output_path <> Some Dir ->
  exists w' container,
    encrypt_to path output_path password w = (Ok tt, w') /\
    fs w' !! output_path = Some (File container) /\
    length container = 8 + 12 + length data + 16 /\
    take 8 container = HEADER_SIGNATURE /\
    take 12 (drop 8 container) = next_iv w /\
    drop 20 container = gcm_encrypt (_derive_key password) (next_iv w) data.
Proof.
  intros Hfs Hfaults Hdir.
  eexists _, (container_of password data w).
  split; [apply (encrypt_to_run _ _ _ data); assumption|].
  split; [cbn [fs with_fs]; apply lookup_insert_eq|].
  unfold container_of.
  split; [rewrite !length_app, next_iv_length, gcm_encrypt_length;
          change (length HEADER_SIGNATURE) with 8; lia|].
  split; [now apply take_app_length'|].
  split.
  - rewrite (drop_app_length' _ _ 8) by reflexivity.
    apply take_app_length'. exact (next_iv_length w).
  - rewrite app_assoc. apply drop_app_length'.
    rewrite length_app, next_iv_length. reflexivity.
Qed.

Lemma decrypt_loop_empty (fuel : nat) (path output_path : string)
      (a : option string) (rest : list (option string)) (w : World) :
  typed w = a :: rest ->
  a = None \/ a = Some EmptyString ->
  decrypt_loop (S fuel) path output_path w =
  decrypt_loop fuel path output_path
    (warned "[red]Mot de passe vide, réessayez.[/red]"
       (with_typed rest (asked "Mot de passe" w))).
Proof.
  intros Htyped Ha. cbn [decrypt_loop]. unfold bind at 1.
  unfold _ask_password, prompt_text. rewrite Htyped.
  destruct Ha as [-> | ->]; reflexivity.
Qed.

Lemma decrypt_loop_attempt (fuel : nat) (path output_path password : string)
      (rest : list (option string)) (w : World) :
  typed w = Some password :: rest ->
  password <> EmptyString ->
  decrypt_loop (S fuel) path output_path w =
  try_except
    (decrypt_to path output_path (_derive_key password);; ret Break)
    (fun _ =>
       console_print "[red]Mot de passe incorrect ou fichier corrompu.[/red]";;
       again ← _confirm "Réessayer avec un autre mot de passe ?";
       if negb again then
         console_print "[yellow]Déchiffrement annulé.[/yellow]";;
         ret Return
       else decrypt_loop fuel path output_path)
    (with_typed rest (asked "Mot de passe" w)).
Proof.
  intros Htyped Hne. cbn [decrypt_loop]. unfold bind at 1.
  unfold _ask_password, prompt_text. rewrite Htyped.
  unfold falsy. rewrite bool_decide_eq_false_2 by exact Hne. reflexivity.
Qed.

Lemma decrypt_loop_failed (fuel : nat) (path output_path password : string)
      (rest : list (option string)) (e : exn) (w w2 : World) :
  typed w = Some password :: rest ->
  password <> EmptyString ->
  decrypt_to path output_path (_derive_key password)
    (with_typed rest (asked "Mot de passe" w)) = (Raise e, w2) ->
  decrypt_loop (S fuel) path output_path w =
  match confirms w2 with
  | [] => (Blocked, at_retry w2)
  | true :: c => decrypt_loop fuel path output_path (with_confirms c (at_retry w2))
  | false :: c =>
      (Ok Return,
       warned "[yellow]Déchiffrement annulé.[/yellow]" (with_confirms c (at_retry w2)))
  end.
Proof.
  intros Htyped Hne Hrun.
  rewrite (decrypt_loop_attempt _ _ _ _ _ _ Htyped Hne).
  unfold try_except. unfold bind at 1. rewrite Hrun.
  unfold bind at 1. unfold console_print at 1.
  unfold bind at 1. unfold _confirm, prompt_confirm.
  cbn [confirms with_terminal].
  destruct (confirms w2) as [|[] c]; reflexivity.
Qed.

Lemma decrypt_loop_succeeded (fuel : nat) (path output_path password : string)
      (rest : list (option string)) (w w2 : World) :
  typed w = Some password :: rest ->
  password <> EmptyString ->
  decrypt_to path output_path (_derive_key password)
    (with_typed rest (asked "Mot de passe" w)) = (Ok tt, w2) ->
  decrypt_loop (S fuel) path output_path w = (Ok Break, w2).
Proof.
  intros Htyped Hne Hrun.
  rewrite (decrypt_loop_attempt _ _ _ _ _ _ Htyped Hne).
  unfold try_except. unfold bind at 1. rewrite Hrun. reflexivity.
Qed.

(** The loop writes only when it leaves by [break], and then exactly the
    plaintext whose tag verified under the key of a non-empty password. *)
Lemma decrypt_loop_frame (fuel : nat) (path output_path : string)
      (w w' : World) (r : res loop_exit) :
  decrypt_loop fuel path output_path w = (r, w') ->
  (r = Ok Break /\
   exists password data plain,
     password <> EmptyString /\
     fs w !! path = Some (File data) /\
     gcm_decrypt (_derive_key password) (take 12 (drop 8 data)) (drop 20 data)
     = Some plain /\
     fs w' = <[output_path := File plain]> (fs w)) \/
  (r <> Ok Break /\ fs w' = fs w).
Proof.
  revert w. induction fuel as [|fuel IH]; intros w Hrun.
  - injection Hrun as <- <-. right. split; [discriminate | reflexivity].
  - destruct (typed w) as [|a rest] eqn:Htyped.
    + cbn [decrypt_loop] in Hrun. unfold bind at 1 in Hrun.
      unfold _ask_password, prompt_text in Hrun. rewrite Htyped in Hrun.
      injection Hrun as <- <-. right. split; [discriminate | reflexivity].
    + destruct (decide (a = None \/ a = Some EmptyString)) as [Hempty|Hfull].
      * rewrite (decrypt_loop_empty _ _ _ _ _ _ Htyped Hempty) in Hrun.
        apply IH in Hrun. exact Hrun.
      * destruct a as [password|]; [|tauto].
        assert (Hne : password <> EmptyString) by (intros ->; tauto).
        destruct (decrypt_to path output_path (_derive_key password)
                    (with_typed rest (asked "Mot de passe" w)))
          as [r2 w2] eqn:Hto.
        destruct (decrypt_to_outcome _ _ _ _ _ _ Hto)
          as [(-> & data & plain & Hfs & Hdec & Hw2) | (e & -> & Hw2)].
        -- rewrite (decrypt_loop_succeeded _ _ _ _ _ _ _ Htyped Hne Hto) in Hrun.
           injection Hrun as <- <-. left. split; [reflexivity|].
           exists password, data, plain. auto.
        -- rewrite (decrypt_loop_failed _ _ _ _ _ _ _ _ Htyped Hne Hto) in Hrun.
           destruct (confirms w2) as [|[] c].
           ++ injection Hrun as <- <-. right. split; [discriminate | exact Hw2].
           ++ apply IH in Hrun. cbn [fs with_confirms at_retry asked warned
                                      with_terminal] in Hrun.
              rewrite Hw2 in Hrun. exact Hrun.
           ++ injection Hrun as <- <-. right. split; [discriminate | exact Hw2].
Qed.

(** C1: a file encrypted by the encrypt block under a non-empty
    password, then given to the decrypt loop with the same password typed
    at its prompt, comes back as exactly the bytes that were encrypted. *)
Theorem encrypt_decrypt_round_trip (fuel : nat) (path output_path password : string)
        (data : bytes) (rest : list (option string)) (w : World) :
  fs w !! path = Some (File data) ->
  open_faults w = [] ->
  password <> EmptyString ->
  typed w = Some password :: rest ->
  fs w !! (path ++ ".yjch")%string <> Some Dir ->
  fs w !! output_path <> Some Dir ->
  exists w1 w2,
    encrypt_to path (path ++ ".yjch") password w = (Ok tt, w1) /\
    fs w1 !! (path ++ ".yjch")%string = Some (File (container_of password data w)) /\
    decrypt_loop (S fuel) (path ++ ".yjch") output_path w1 = (Ok Break, w2) /\
    fs w2 !! output_path = Some (File data).
Proof.
  intros Hfs Hfaults Hne Htyped Hcdir Hodir.
  eexists _, _.
  split; [apply (encrypt_to_run _ _ _ data); assumption|].
  split; [cbn [fs with_fs]; apply lookup_insert_eq|].
  split.
  - eapply decrypt_loop_succeeded; [exact Htyped | exact Hne |].
    apply (decrypt_to_run _ _ _ (next_iv w)
             (gcm_encrypt (_derive_key password) (next_iv w) data)).
    + cbn [fs with_fs with_typed asked with_terminal with_drawn].
      rewrite lookup_insert_eq. reflexivity.
    + exact Hfaults.
    + apply sha256_length.
    + exact (next_iv_length w).
    + rewrite gcm_encrypt_length. lia.
    + apply gcm_decrypt_encrypt; [apply sha256_length | exact (next_iv_length w)].
    + cbn [fs with_fs with_typed asked with_terminal with_drawn].
      destruct (decide ((path ++ ".yjch")%string = output_path)) as [<-|Hdiff].
      * rewrite lookup_insert_eq. discriminate.
      * rewrite lookup_insert_ne by exact Hdiff. exact Hodir.
  - cbn [fs with_fs]. apply lookup_insert_eq.
Qed.

(** C9: the decrypt loop as a state machine.  An empty password prints
    the notice and asks again, with no [open] and no write; a failed
    attempt leaves the file system as it was and leads to the retry
    question, where yes goes back to the password prompt and no ends the
    loop by [return]; a successful attempt ends the loop by [break] with
    the verified plaintext at the output path; and however the loop runs,
    the file system changes only in that last case. *)
Theorem decrypt_loop_state_machine (fuel : nat) (path output_path : string)
        (w : World) :
  (forall a rest,
     typed w = a :: rest ->
     a = None \/ a = Some EmptyString ->
     let w1 := warned "[red]Mot de passe vide, réessayez.[/red]"
                 (with_typed rest (asked "Mot de passe" w)) in
     decrypt_loop (S fuel) path output_path w = decrypt_loop fuel path output_path w1 /\
     fs w1 = fs w /\ open_faults w1 = open_faults w)
  /\
  (forall password rest e w2,
     typed w = Some password :: rest ->
     password <> EmptyString ->
     decrypt_to path output_path (_derive_key password)
       (with_typed rest (asked "Mot de passe" w)) = (Raise e, w2) ->
     fs w2 = fs w /\
     (forall c, confirms w2 = true :: c ->
        decrypt_loop (S fuel) path output_path w
        = decrypt_loop fuel path output_path (with_confirms c (at_retry w2))) /\
     (forall c, confirms w2 = false :: c ->
        decrypt_loop (S fuel) path output_path w
        = (Ok Return,
           warned "[yellow]Déchiffrement annulé.[/yellow]"
             (with_confirms c (at_retry w2)))))
  /\
  (forall password rest w2,
     typed w = Some password :: rest ->
     password <> EmptyString ->
     decrypt_to path output_path (_derive_key password)
       (with_typed rest (asked "Mot de passe" w)) = (Ok tt, w2) ->
     decrypt_loop (S fuel) path output_path w = (Ok Break, w2) /\
     exists data plain,
       fs w !! path = Some (File data) /\
       gcm_decrypt (_derive_key password) (take 12 (drop 8 data)) (drop 20 data)
       = Some plain /\
       fs w2 = <[output_path := File plain]> (fs w))
  /\
  (forall r w',
     decrypt_loop fuel path output_path w = (r, w') ->
     r <> Ok Break -> fs w' = fs w).
Proof.
  split; [|split; [|split]].
  - intros a rest Htyped Ha w1. split; [|split; reflexivity].
    apply (decrypt_loop_empty _ _ _ a rest); assumption.
  - intros password rest e w2 Htyped Hne Hto.
    pose proof (decrypt_loop_failed fuel _ _ _ _ _ _ _ Htyped Hne Hto) as Hloop.
    destruct (decrypt_to_outcome _ _ _ _ _ _ Hto)
      as [([=] & _) | (e' & _ & Hfs)].
    split; [exact Hfs|]. split; intros c Hc; rewrite Hc in Hloop; exact Hloop.
  - intros password rest w2 Htyped Hne Hto.
    split; [eapply decrypt_loop_succeeded; eassumption|].
    destruct (decrypt_to_outcome _ _ _ _ _ _ Hto)
      as [(_ & data & plain & Hfs & Hdec & Hw2) | (e & [=] & _)].
    exists data, plain. auto.
  - intros r w' Hrun Hr.
    destruct (decrypt_loop_frame _ _ _ _ _ _ Hrun) as [(-> & _) | (_ & Hfs)];
      [congruence | exact Hfs].
Qed.

(** C5, as the code has it: when reading the container fails inside the
    loop (the [open] raises, whatever the exception), the failure is
    caught with the authentication failures: the same message is printed
    and the retry question is asked; yes goes back to the password prompt,
    no ends the operation. *)
Theorem decrypt_read_failure_asks_retry (fuel : nat) (path output_path password : string)
        (rest : list (option string)) (e : exn) (w w2 : World) :
  typed w = Some password :: rest ->
  password <> EmptyString ->
  open_rb path (with_typed rest (asked "Mot de passe" w)) = (Raise e, w2) ->
  decrypt_loop (S fuel) path output_path w =
  match confirms w2 with
  | [] => (Blocked, at_retry w2)
  | true :: c => decrypt_loop fuel path output_path (with_confirms c (at_retry w2))
  | false :: c =>
      (Ok Return,
       warned "[yellow]Déchiffrement annulé.[/yellow]" (with_confirms c (at_retry w2)))
  end.
Proof.
  intros Htyped Hne Hopen.
  apply (decrypt_loop_failed fuel path output_path password rest e w w2 Htyped Hne).
  unfold decrypt_to. unfold bind at 1. rewrite Hopen. reflexivity.
Qed.

(** *** Calls that leave a part of the world alone *)

(** [m] never changes what [obs] sees of the world, however it ends. *)
Definition keeps {A X : Type} (obs : World -> X) (m : M A) : Prop :=
  forall w r w', m w = (r, w') -> obs w' = obs w.

Section Keeps.
Context {X : Type} (obs : World -> X).

Lemma keeps_ret {A : Type} (a : A) : keeps obs (ret a).
Proof. intros w r w' [= <- <-]. reflexivity. Qed.

Lemma keeps_raise {A : Type} (e : exn) : keeps obs (@raise A e).
Proof. intros w r w' [= <- <-]. reflexivity. Qed.

Lemma keeps_out_of_fuel {A : Type} : keeps obs (@out_of_fuel A).
Proof. intros w r w' [= <- <-]. reflexivity. Qed.

Lemma keeps_bind {A B : Type} (m : M A) (k : A -> M B) :
  keeps obs m -> (forall a, keeps obs (k a)) -> keeps obs (bind m k).
Proof.
  intros Hm Hk w r w'. unfold bind.
  destruct (m w) as [[a|e| |] w1] eqn:Hrun; specialize (Hm _ _ _ Hrun).
  - intros Hrest. apply Hk in Hrest. congruence.
  - intros [= <- <-]. exact Hm.
  - intros [= <- <-]. exact Hm.
  - intros [= <- <-]. exact Hm.
Qed.

Lemma keeps_try_except {A : Type} (m : M A) (h : exn -> M A) :
  keeps obs m -> (forall e, keeps obs (h e)) -> keeps obs (try_except m h).
Proof.
  intros Hm Hh w r w'. unfold try_except.
  destruct (m w) as [[a|e| |] w1] eqn:Hrun; specialize (Hm _ _ _ Hrun).
  - intros [= <- <-]. exact Hm.
  - intros Hrest. apply Hh in Hrest. congruence.
  - intros [= <- <-]. exact Hm.
  - intros [= <- <-]. exact Hm.
Qed.

Lemma keeps_if {A : Type} (b : bool) (m1 m2 : M A) :
  keeps obs m1 -> keeps obs m2 -> keeps obs (if b then m1 else m2).
Proof. now destruct b. Qed.

End Keeps.

Lemma keeps_fs_console_print (msg : string) : keeps fs (console_print msg).
Proof. intros w r w' [= <- <-]. reflexivity. Qed.

Lemma keeps_fs_prompt_text (message default : string) :
  keeps fs (prompt_text message default).
Proof.
  intros w r w'. unfold prompt_text.
  destruct (typed w) as [|[s|] rest]; intros [= <- <-]; reflexivity.
Qed.

Lemma keeps_fs_prompt_confirm (message : string) :
  keeps fs (prompt_confirm message).
Proof.
  intros w r w'. unfold prompt_confirm.
  destruct (confirms w) as [|b rest]; intros [= <- <-]; reflexivity.
Qed.

Lemma keeps_fs_open_rb (path : string) : keeps fs (open_rb path).
Proof.
  intros w r w'. rewrite open_rb_run. cbv zeta.
  destruct (pending_fault w); [intros [= <- <-]; reflexivity|].
  destruct (fs w !! path) as [[|data]|]; intros [= <- <-]; reflexivity.
Qed.

Lemma keeps_fs_requests_get (url : string) : keeps fs (requests_get url).
Proof.
  intros w r w'. unfold requests_get.
  destruct (net w url); intros [= <- <-]; reflexivity.
Qed.

Lemma keeps_typed_open_rb (path : string) : keeps typed (open_rb path).
Proof.
  intros w r w'. rewrite open_rb_run. cbv zeta.
  destruct (pending_fault w); [intros [= <- <-]; reflexivity|].
  destruct (fs w !! path) as [[|data]|]; intros [= <- <-]; reflexivity.
Qed.

Lemma keeps_typed_open_wb (path : string) : keeps typed (open_wb path).
Proof.
  intros w r w'. rewrite open_wb_run. cbv zeta.
  destruct (pending_fault w); [intros [= <- <-]; reflexivity|].
  destruct (fs w !! path) as [[|data]|]; intros [= <- <-]; reflexivity.
Qed.

Lemma keeps_typed_write (path : string) (data : bytes) : keeps typed (write path data).
Proof.
  intros w r w'. unfold write.
  destruct (fs w !! path) as [[|old]|]; intros [= <- <-]; reflexivity.
Qed.

Lemma keeps_typed_console_print (msg : string) : keeps typed (console_print msg).
Proof. intros w r w' [= <- <-]. reflexivity. Qed.

Lemma keeps_typed_prompt_confirm (message : string) :
  keeps typed (prompt_confirm message).
Proof.
  intros w r w'. unfold prompt_confirm.
  destruct (confirms w) as [|b rest]; intros [= <- <-]; reflexivity.
Qed.

Lemma keeps_typed_requests_get (url : string) : keeps typed (requests_get url).
Proof.
  intros w r w'. unfold requests_get.
  destruct (net w url); intros [= <- <-]; reflexivity.
Qed.

Create HintDb frame discriminated.
#[local] Hint Resolve keeps_ret keeps_raise keeps_out_of_fuel
  keeps_fs_console_print keeps_fs_prompt_text keeps_fs_prompt_confirm
  keeps_fs_open_rb keeps_fs_requests_get
  keeps_typed_open_rb keeps_typed_open_wb keeps_typed_write
  keeps_typed_console_print keeps_typed_prompt_confirm
  keeps_typed_requests_get : frame.

(** Splits a composed call into its parts and closes the parts that are
    single calls. *)
Ltac frame_step :=
  cbv beta zeta;
  first
    [ solve [auto with frame]
    | apply keeps_bind; [|intros ?]
    | apply keeps_try_except; [|intros ?]
    | apply keeps_if
    | match goal with |- keeps _ (match ?x with _ => _ end) => destruct x end ].

Lemma keeps_fs_is_already_encrypted (path : string) :
  keeps fs (_is_already_encrypted path).
Proof. unfold _is_already_encrypted. repeat frame_step. Qed.

Lemma keeps_fs_check_password_pwned (password : string) :
  keeps fs (_check_password_pwned password).
Proof. unfold _check_password_pwned. repeat frame_step. Qed.

Lemma keeps_typed_check_password_pwned (password : string) :
  keeps typed (_check_password_pwned password).
Proof. unfold _check_password_pwned. repeat frame_step. Qed.

Lemma keeps_fs_ask_password_and_verify (fuel : nat) :
  keeps fs (_ask_password_and_verify fuel).
Proof.
  induction fuel as [|fuel IH]; cbn [_ask_password_and_verify].
  - apply keeps_out_of_fuel.
  - unfold _ask_password, _confirm.
    repeat first [exact IH | apply keeps_fs_check_password_pwned | frame_step].
Qed.

Lemma keeps_typed_decrypt_to (path output_path : string) (key : bytes) :
  keeps typed (decrypt_to path output_path key).
Proof.
  unfold decrypt_to, AESGCM, aesgcm_decrypt. repeat frame_step.
Qed.

(** *** The loops end with the operator's script *)

(** Each iteration of a loop consumes an answer, so a loop given more
    iterations than answers are left never runs out of them: it returns,
    raises, or waits for an answer. *)
Lemma decrypt_loop_enough_fuel (fuel : nat) (path output_path : string) (w : World) :
  length (typed w) < fuel ->
  fst (decrypt_loop fuel path output_path w) <> OutOfFuel.
Proof.
  revert w. induction fuel as [|fuel IH]; intros w Hlen; [lia|].
  destruct (typed w) as [|a rest] eqn:Htyped.
  - cbn [decrypt_loop]. unfold bind at 1. unfold _ask_password, prompt_text.
    rewrite Htyped. discriminate.
  - simpl in Hlen.
    destruct (decide (a = None \/ a = Some EmptyString)) as [Hempty|Hfull].
    + rewrite (decrypt_loop_empty _ _ _ _ _ _ Htyped Hempty).
      apply IH. cbn. lia.
    + destruct a as [password|]; [|tauto].
      assert (Hne : password <> EmptyString) by (intros ->; tauto).
      destruct (decrypt_to path output_path (_derive_key password)
                  (with_typed rest (asked "Mot de passe" w)))
        as [r2 w2] eqn:Hto.
      pose proof (keeps_typed_decrypt_to _ _ _ _ _ _ Hto) as Hkept.
      destruct (decrypt_to_outcome _ _ _ _ _ _ Hto)
        as [(-> & _) | (e & -> & _)].
      * rewrite (decrypt_loop_succeeded _ _ _ _ _ _ _ Htyped Hne Hto).
        discriminate.
      * rewrite (decrypt_loop_failed _ _ _ _ _ _ _ _ Htyped Hne Hto).
        destruct (confirms w2) as [|[] c]; try discriminate.
        apply IH. cbn in Hkept |- *. rewrite Hkept. lia.
Qed.

Lemma check_password_pwned_returns (password : string) (w : World) :
  exists b w', _check_password_pwned password w = (Ok b, w').
Proof.
  rewrite check_password_pwned_run. cbv zeta.
  destruct (net w _) as [|code text]; [eauto|].
  destruct (bool_decide (code = 200%Z)); eauto.
Qed.

Lemma ask_password_and_verify_enough_fuel (fuel : nat) (w : World) :
  length (typed w) < fuel ->
  fst (_ask_password_and_verify fuel w) <> OutOfFuel.
Proof.
  revert w. induction fuel as [|fuel IH]; intros w Hlen; [lia|].
  cbn [_ask_password_and_verify]. unfold bind at 1.
  unfold _ask_password, prompt_text.
  destruct (typed w) as [|a rest] eqn:Htyped; [discriminate|].
  simpl in Hlen.
  set (w1 := with_typed rest _).
  assert (Hw1 : length (typed w1) < fuel) by (cbn; lia).
  clearbody w1.
  set (password := match a with Some s => s | None => EmptyString end).
  replace (match a with
           | Some s => (Ok s, w1)
           | None => (Ok EmptyString, w1)
           end) with (Ok password, w1) by (destruct a; reflexivity).
  clearbody password.
  destruct (falsy password).
  - unfold bind at 1. unfold console_print at 1. apply IH. exact Hw1.
  - unfold bind at 1.
    destruct (check_password_pwned_returns password w1) as (b & w2 & Hcheck).
    rewrite Hcheck.
    pose proof (keeps_typed_check_password_pwned _ _ _ _ Hcheck) as Hkept.
    destruct b; [|discriminate].
    unfold bind at 1. unfold console_print at 1.
    unfold bind at 1. unfold _confirm, prompt_confirm. cbn [confirms with_terminal].
    destruct (confirms w2) as [|[] c]; try discriminate.
    cbn [negb]. apply IH. cbn. rewrite Hkept. exact Hw1.
Qed.

Lemma bind_ok_inv {A B : Type} (m : M A) (k : A -> M B) (w w' : World) (b : B) :
  bind m k w = (Ok b, w') ->
  exists a w1, m w = (Ok a, w1) /\ k a w1 = (Ok b, w').
Proof.
  unfold bind. destruct (m w) as [[a|e| |] w1]; try discriminate. eauto.
Qed.

(** C8: when the encrypt workflow reaches the overwrite question (the
    chosen path is a regular file that is no container, a password was
    accepted, and the output path exists) and the operator declines, it
    ends through the cancel [return] with the file system exactly as it
    was; and every run that ends through that [return] leaves the file
    system as it was. *)
Theorem handle_encrypt_overwrite_declined (fuel : nat) (w : World) :
  (forall path password data rest c wb wc,
     typed w = Some path :: rest ->
     path <> EmptyString ->
     fs w !! path = Some (File data) ->
     _is_already_encrypted path (with_typed rest (asked "Chemin du fichier" w))
     = (Ok false, wb) ->
     _ask_password_and_verify fuel wb = (Ok password, wc) ->
     is_Some (fs w !! (path ++ ".yjch")%string) ->
     confirms wc = false :: c ->
     exists w',
       _handle_encrypt fuel w = (Ok EncryptCancelled, w') /\ fs w' = fs w)
  /\
  (forall w', _handle_encrypt fuel w = (Ok EncryptCancelled, w') -> fs w' = fs w).
Proof.
  split.
  - intros path password data rest c wb wc Htyped Hne Hfs Hprobe Hpw Hout Hc.
    unfold _handle_encrypt. unfold bind at 1.
    unfold _ask_file_path, prompt_text. rewrite Htyped.
    unfold bind at 1. unfold os_path_isfile.
    cbn [fs with_typed with_terminal]. rewrite Hfs.
    unfold falsy. rewrite bool_decide_eq_false_2 by exact Hne. cbn [orb negb].
    unfold bind at 1. fold (asked "Chemin du fichier" w). rewrite Hprobe.
    unfold bind at 1. rewrite Hpw.
    pose proof (keeps_fs_is_already_encrypted _ _ _ _ Hprobe) as Hfsb.
    pose proof (keeps_fs_ask_password_and_verify _ _ _ _ Hpw) as Hfsc.
    assert (Hfswc : fs wc = fs w) by (rewrite Hfsc, Hfsb; reflexivity).
    unfold bind at 1. unfold os_path_exists. rewrite Hfswc.
    destruct Hout as [n ->].
    unfold bind at 1. unfold bind at 1. unfold _confirm, prompt_confirm.
    rewrite Hc. unfold ret at 1. cbn [negb].
    unfold bind at 1. unfold console_print at 1. unfold ret.
    eexists. split; [reflexivity|]. cbn. exact Hfswc.
  - intros w' Hrun. unfold _handle_encrypt in Hrun.
    apply bind_ok_inv in Hrun as (path & wa & Hask & Hrun).
    apply keeps_fs_prompt_text in Hask.
    apply bind_ok_inv in Hrun as (isfile & wa' & Hisfile & Hrun).
    assert (wa' = wa) by (unfold os_path_isfile in Hisfile; congruence).
    subst wa'. clear Hisfile.
    destruct (falsy path || negb isfile).
    { apply bind_ok_inv in Hrun as (? & ? & _ & [=]). }
    apply bind_ok_inv in Hrun as (already & wb & Hprobe & Hrun).
    apply keeps_fs_is_already_encrypted in Hprobe as Hfsb.
    destruct already.
    { apply bind_ok_inv in Hrun as (? & ? & _ & [=]). }
    apply bind_ok_inv in Hrun as (password & wc & Hpw & Hrun).
    apply keeps_fs_ask_password_and_verify in Hpw.
    apply bind_ok_inv in Hrun as (present & wc' & Hpresent & Hrun).
    assert (wc' = wc) by (unfold os_path_exists in Hpresent; congruence).
    subst wc'. clear Hpresent.
    apply bind_ok_inv in Hrun as (declined & wd & Hdecl & Hrun).
    assert (Hfsd : fs wd = fs wc).
    { destruct present.
      - apply bind_ok_inv in Hdecl as (overwrite & wx & Hconf & [= <- <-]).
        now apply keeps_fs_prompt_confirm in Hconf.
      - now injection Hdecl as <- <-. }
    destruct declined.
    + apply bind_ok_inv in Hrun as ([] & wp & [= <-] & [= <-]).
      cbn. congruence.
    + apply bind_ok_inv in Hrun as (? & ? & _ & Hrun).
      apply bind_ok_inv in Hrun as (? & ? & _ & Hrun).
      apply bind_ok_inv in Hrun as (? & ? & _ & Hrun).
      apply bind_ok_inv in Hrun as (? & ? & _ & [=]).
Qed.


Lemma container_split (data : bytes) :
  take 8 data = HEADER_SIGNATURE ->
  data = HEADER_SIGNATURE ++ take 12 (drop 8 data) ++ drop 20 data.
Proof.
  intros Hsig. rewrite <- Hsig.
  change 20 with (8 + 12). rewrite <- drop_drop.
  now rewrite !take_drop.
Qed.

(** C10: the default output path of the decrypt workflow is the input
    path cut at its last [.yjch]: whatever follows that occurrence is
    dropped ([doc.yjch.bak] gives [doc]); a path without [.yjch] is its
    own default, and an operator who accepts it and gives the right
    password has the container replaced by its plaintext. *)
Theorem output_default_cuts_at_last_suffix :
  (forall a b, ~ occurs ".yjch" b -> output_default (a ++ ".yjch" ++ b) = a) /\
  output_default "doc.yjch.bak" = "doc" /\
  (forall path, ~ occurs ".yjch" path -> output_default path = path) /\
  (forall fuel w path password data plain rest c,
     ~ occurs ".yjch" path ->
     path <> EmptyString ->
     password <> EmptyString ->
     typed w = Some path :: None :: Some password :: rest ->
     confirms w = false :: c ->
     open_faults w = [] ->
     fs w !! path = Some (File data) ->
     take 8 data = HEADER_SIGNATURE ->
     36 <= length data ->
     gcm_decrypt (_derive_key password) (take 12 (drop 8 data)) (drop 20 data)
     = Some plain ->
     exists w',
       _handle_decrypt (S fuel) w = (Ok DecryptDone, w') /\
       fs w' = <[path := File plain]> (fs w)).
Proof.
  split; [exact output_default_last|].
  split; [reflexivity|].
  split; [exact output_default_absent|].
  intros fuel w path password data plain rest c Hno Hpath Hpw Htyped Hconf
         Hfaults Hfs Hsig Hlen Hdec.
  unfold _handle_decrypt. unfold bind at 1.
  unfold _ask_file_path, prompt_text. rewrite Htyped.
  unfold bind at 1. unfold os_path_isfile.
  cbn [fs with_typed with_terminal]. rewrite Hfs.
  unfold falsy. rewrite bool_decide_eq_false_2 by exact Hpath. cbn [orb negb].
  unfold bind at 1. rewrite is_already_encrypted_run. cbv zeta.
  unfold pending_fault. cbn [open_faults fs with_typed with_terminal].
  rewrite Hfaults, Hfs. cbn [hd tl].
  rewrite bool_decide_eq_true_2 by exact Hsig. cbn [negb].
  unfold bind at 1. unfold _ask_output_path, prompt_text.
  cbn [typed with_open_faults with_typed with_terminal].
  rewrite (output_default_absent _ Hno).
  unfold bind at 1.
  erewrite decrypt_loop_succeeded; cycle 1.
  - reflexivity.
  - exact Hpw.
  - apply (decrypt_to_run _ _ _ (take 12 (drop 8 data)) (drop 20 data) plain).
    + cbn [fs with_open_faults with_typed with_terminal asked].
      rewrite Hfs. f_equal. f_equal. now apply container_split.
    + reflexivity.
    + apply sha256_length.
    + rewrite length_take, length_drop. lia.
    + rewrite length_drop. lia.
    + exact Hdec.
    + cbn [fs with_open_faults with_typed with_terminal asked].
      rewrite Hfs. discriminate.
  - unfold bind at 1. unfold console_print at 1.
    unfold bind at 1. unfold _confirm, prompt_confirm.
    cbn [confirms with_open_faults with_typed with_terminal asked with_fs].
    rewrite Hconf. unfold bind at 1. unfold ret.
    eexists. split; reflexivity.
Qed.

End Workflow.

(** * The workflows as a whole *)

(** The path the operator gives at the first prompt. *)
Lemma ask_file_path_run (a : option string) (rest : list (option string)) (w : World) :
  typed w = a :: rest ->
  _ask_file_path w
  = (Ok (default EmptyString a), with_typed rest (asked "Chemin du fichier" w)).
Proof.
  intros Htyped. unfold _ask_file_path, prompt_text. rewrite Htyped.
  destruct a; reflexivity.
Qed.

(** The steps of both workflows from the file prompt to the result of
    the probe, for a path that names a regular file [open] can read. *)
Ltac to_probe Htyped Hne Hfs Hfault :=
  unfold bind at 1; rewrite (ask_file_path_run _ _ _ Htyped);
  unfold default, from_option, id;
  unfold bind at 1; unfold os_path_isfile;
  cbn [fs with_typed asked with_terminal]; rewrite Hfs;
  unfold falsy; rewrite bool_decide_eq_false_2 by exact Hne; cbn [orb negb];
  unfold bind at 1; rewrite is_already_encrypted_run; cbv zeta;
  unfold pending_fault in Hfault |- *;
  cbn [open_faults fs with_typed asked with_terminal];
  rewrite Hfault, Hfs.

(** A single call into the operating system or a library keeps whatever
    part of the world it does not write. *)
Ltac keeps_call :=
  let w := fresh "w" in
  let r := fresh "r" in
  let w' := fresh "w'" in
  intros w r w';
  rewrite ?open_rb_run, ?open_wb_run; cbv zeta;
  unfold console_print, prompt_text, prompt_confirm, os_path_isfile,
    os_path_exists, os_path_getsize, os_urandom, requests_get, os_remove,
    write, ret, raise, out_of_fuel;
  repeat match goal with
         | |- context [match ?x with _ => _ end] =>
             lazymatch x with
             | context [match _ with _ => _ end] => fail
             | _ => destruct x
             end
         end;
  intros [= <- <-]; reflexivity.

(** A composed call keeps what each of its parts keeps. *)
Ltac keeps_step :=
  cbv beta zeta;
  first
    [ assumption
    | solve [keeps_call]
    | apply keeps_bind; [|intros ?]
    | apply keeps_try_except; [|intros ?]
    | apply keeps_if
    | match goal with |- keeps _ (match ?x with _ => _ end) => destruct x end ].

Section Whole.
Context `{CryptoLib}.

(** ** The preconditions of the two workflows *)

(** X1: a path left empty, a missing path and a directory end both
    workflows at the first [return]: the message names the path, no file
    is opened, nothing else is asked and the file system is untouched. *)
Theorem handle_not_found (fuel : nat) (a : option string)
        (rest : list (option string)) (w : World) :
  typed w = a :: rest ->
  let path := default EmptyString a in
  path = EmptyString \/ (forall data, fs w !! path <> Some (File data)) ->
  let w' := warned ("[red]Fichier non trouvé : " ++ path ++ "[/red]")
              (with_typed rest (asked "Chemin du fichier" w)) in
  _handle_encrypt fuel w = (Ok EncryptNotFound, w') /\
  _handle_decrypt fuel w = (Ok DecryptNotFound, w') /\
  fs w' = fs w /\ open_faults w' = open_faults w /\ sent w' = sent w.
Proof.
  intros Htyped path Hpath w'.
  assert (Hguard : falsy path
                   || negb (match fs w !! path with
                            | Some (File _) => true
                            | _ => false
                            end) = true).
  { destruct Hpath as [-> | Hnofile]; [reflexivity|].
    destruct (fs w !! path) as [[|data]|] eqn:Hfs;
      [apply orb_true_r | exfalso; exact (Hnofile data eq_refl) | apply orb_true_r]. }
  split; [|split; [|repeat split]].
  - unfold _handle_encrypt. unfold bind at 1.
    rewrite (ask_file_path_run _ _ _ Htyped). fold path.
    unfold bind at 1. unfold os_path_isfile.
    cbn [fs with_typed asked with_terminal]. rewrite Hguard. reflexivity.
  - unfold _handle_decrypt. unfold bind at 1.
    rewrite (ask_file_path_run _ _ _ Htyped). fold path.
    unfold bind at 1. unfold os_path_isfile.
    cbn [fs with_typed asked with_terminal]. rewrite Hguard. reflexivity.
Qed.

(** X2: a file that starts with the signature is not encrypted again:
    the encrypt workflow ends at its second [return] before any password
    is asked, with no request sent and the file system untouched. *)
Theorem handle_encrypt_refuses_container (fuel : nat) (path : string) (data : bytes)
        (rest : list (option string)) (w : World) :
  typed w = Some path :: rest ->
  path <> EmptyString ->
  fs w !! path = Some (File data) ->
  pending_fault w = None ->
  take 8 data = HEADER_SIGNATURE ->
  exists w',
    _handle_encrypt fuel w = (Ok EncryptRefused, w') /\
    fs w' = fs w /\ typed w' = rest /\ confirms w' = confirms w /\ sent w' = sent w.
Proof.
  intros Htyped Hne Hfs Hfault Hsig.
  unfold _handle_encrypt. to_probe Htyped Hne Hfs Hfault.
  rewrite bool_decide_eq_true_2 by exact Hsig.
  eexists. split; [reflexivity|]. repeat split.
Qed.

(** X3: a regular file that does not start with the signature (a file
    shorter than 8 bytes among them) is not decrypted: the decrypt
    workflow ends at its second [return] before the output path or a
    password is asked, and the file system is untouched. *)
Theorem handle_decrypt_rejects_foreign (fuel : nat) (path : string) (data : bytes)
        (rest : list (option string)) (w : World) :
  typed w = Some path :: rest ->
  path <> EmptyString ->
  fs w !! path = Some (File data) ->
  pending_fault w = None ->
  take 8 data <> HEADER_SIGNATURE ->
  exists w',
    _handle_decrypt fuel w = (Ok DecryptNotContainer, w') /\
    fs w' = fs w /\ typed w' = rest /\ confirms w' = confirms w.
Proof.
  intros Htyped Hne Hfs Hfault Hsig.
  unfold _handle_decrypt. to_probe Htyped Hne Hfs Hfault.
  rewrite bool_decide_eq_false_2 by exact Hsig.
  eexists. split; [reflexivity|]. repeat split.
Qed.

(** X4: what the encrypt block writes is recognised by the probe: once
    the block has run, the output path holds a container. *)
Theorem encrypt_to_then_probe (path output_path password : string) (data : bytes)
        (w : World) :
  fs w !! path = Some (File data) ->
  open_faults w = [] ->
  output_path <> EmptyString ->
  fs w !! output_path <> Some Dir ->
  exists w1 w2,
    encrypt_to path output_path password w = (Ok tt, w1) /\
    _is_already_encrypted output_path w1 = (Ok true, w2).
Proof.
  intros Hfs Hfaults _ Hdir. eexists _, _.
  split; [apply (encrypt_to_run _ _ _ data); assumption|].
  rewrite is_already_encrypted_run. cbv zeta. unfold pending_fault.
  cbn [open_faults fs with_fs with_drawn]. rewrite Hfaults. cbn [hd].
  rewrite lookup_insert_eq.
  rewrite bool_decide_eq_true_2; [reflexivity|].
  unfold container_of. now apply take_app_length'.
Qed.

(** ** The password loop *)

Lemma keeps_confirms_check_password_pwned (password : string) :
  keeps confirms (_check_password_pwned password).
Proof. unfold _check_password_pwned. repeat keeps_step. Qed.

Lemma keeps_net_check_password_pwned (password : string) :
  keeps net (_check_password_pwned password).
Proof. unfold _check_password_pwned. repeat keeps_step. Qed.

(** The answer of the breach check depends on the world through the
    remote service only. *)
Lemma check_password_pwned_same_net (password : string) (w1 w2 : World) :
  net w1 = net w2 ->
  fst (_check_password_pwned password w1) = fst (_check_password_pwned password w2).
Proof.
  intros Hnet. rewrite !check_password_pwned_run. cbv zeta. rewrite Hnet.
  destruct (net w2 _) as [|code text]; [reflexivity|].
  destruct (bool_decide (code = 200%Z)); reflexivity.
Qed.


(** One iteration of the password loop. *)
Lemma ask_password_and_verify_step (fuel : nat) (a : option string)
      (rest : list (option string)) (w : World) :
  typed w = a :: rest ->
  forall password w1,
  password = default EmptyString a ->
  w1 = with_typed rest (asked "Mot de passe" w) ->
  (password = EmptyString /\
   _ask_password_and_verify (S fuel) w
   = _ask_password_and_verify fuel
       (warned "[red]Mot de passe vide, réessayez.[/red]" w1)) \/
  (password <> EmptyString /\
   exists b w2,
     _check_password_pwned password w1 = (Ok b, w2) /\
     _ask_password_and_verify (S fuel) w =
     if b then
       match confirms w2 with
       | [] => (Blocked, at_override w2)
       | true :: c => (Ok password, with_confirms c (at_override w2))
       | false :: c =>
           _ask_password_and_verify fuel (with_confirms c (at_override w2))
       end
     else (Ok password, w2)).
Proof.
  intros Htyped password w1 Hpassword Hw1.
  assert (Hprompt : _ask_password w = (Ok password, w1)).
  { subst. unfold _ask_password, prompt_text. rewrite Htyped.
    destruct a; reflexivity. }
  clear Hpassword Hw1.
  destruct (decide (password = EmptyString)) as [Hempty|Hfull]; [left|right];
    (split; [assumption|]).
  - cbn [_ask_password_and_verify]. unfold bind at 1. rewrite Hprompt.
    cbv beta iota. unfold falsy.
    rewrite bool_decide_eq_true_2 by exact Hempty. reflexivity.
  - destruct (check_password_pwned_returns password w1) as (b & w2 & Hcheck).
    exists b, w2. split; [exact Hcheck|].
    cbn [_ask_password_and_verify]. unfold bind at 1. rewrite Hprompt.
    cbv beta iota. unfold falsy.
    rewrite bool_decide_eq_false_2 by exact Hfull.
    unfold bind at 1. rewrite Hcheck. destruct b; [|reflexivity].
    unfold bind at 1. unfold console_print at 1.
    unfold bind at 1. unfold _confirm, prompt_confirm.
    cbn [confirms with_terminal]. fold (at_override w2).
    destruct (confirms w2) as [|[] c]; reflexivity.
Qed.

(** X5: the password the loop returns is never empty and is one of the
    answers the operator typed; the loop writes no file. *)
Theorem ask_password_and_verify_returns_typed (fuel : nat) (w w' : World)
        (password : string) :
  _ask_password_and_verify fuel w = (Ok password, w') ->
  password <> EmptyString /\ Some password ∈ typed w /\ fs w' = fs w.
Proof.
  intros Hrun.
  split; [|split; [|exact (keeps_fs_ask_password_and_verify _ _ _ _ Hrun)]];
    revert w Hrun; induction fuel as [|fuel IH]; intros w Hrun;
    try discriminate.
  - destruct (typed w) as [|a rest] eqn:Htyped.
    { cbn [_ask_password_and_verify] in Hrun. unfold bind at 1 in Hrun.
      unfold _ask_password, prompt_text in Hrun. rewrite Htyped in Hrun.
      discriminate. }
    destruct (ask_password_and_verify_step fuel a rest w Htyped _ _ eq_refl eq_refl)
      as [(_ & Hstep) | (Hfull & b & w2 & Hcheck & Hstep)];
      rewrite Hstep in Hrun.
    + exact (IH _ Hrun).
    + destruct b.
      * destruct (confirms w2) as [|[] c]; try discriminate.
        -- now injection Hrun as <- _.
        -- exact (IH _ Hrun).
      * now injection Hrun as <- _.
  - destruct (typed w) as [|a rest] eqn:Htyped.
    { cbn [_ask_password_and_verify] in Hrun. unfold bind at 1 in Hrun.
      unfold _ask_password, prompt_text in Hrun. rewrite Htyped in Hrun.
      discriminate. }
    assert (Hhere : forall p, p <> EmptyString -> default EmptyString a = p ->
                              Some p ∈ a :: rest).
    { intros p Hp Hdef. destruct a as [s|]; cbn in Hdef; [|congruence].
      subst. left. }
    destruct (ask_password_and_verify_step fuel a rest w Htyped _ _ eq_refl eq_refl)
      as [(_ & Hstep) | (Hfull & b & w2 & Hcheck & Hstep)];
      rewrite Hstep in Hrun.
    + right. exact (IH _ Hrun).
    + pose proof (keeps_typed_check_password_pwned _ _ _ _ Hcheck) as Hkept.
      destruct b.
      * destruct (confirms w2) as [|[] c]; try discriminate.
        -- injection Hrun as <- _. now apply Hhere.
        -- right. apply IH in Hrun. cbn in Hrun. rewrite Hkept in Hrun. exact Hrun.
      * injection Hrun as <- _. now apply Hhere.
Qed.

(** X6: a password the service lists is returned only after the operator
    said yes to the override question: the yes/no answers the loop used
    are some refusals followed by that yes; for a password the service
    does not list they are refusals only (of listed passwords typed
    before). *)
Theorem ask_password_and_verify_override (fuel : nat) (w w' : World)
        (password : string) :
  _ask_password_and_verify fuel w = (Ok password, w') ->
  exists refusals,
    confirms w
    = repeat false refusals
        ++ (match fst (_check_password_pwned password w) with
            | Ok true => [true]
            | _ => []
            end)
        ++ confirms w'.
Proof.
  revert w. induction fuel as [|fuel IH]; intros w Hrun; [discriminate|].
  destruct (typed w) as [|a rest] eqn:Htyped.
  { cbn [_ask_password_and_verify] in Hrun. unfold bind at 1 in Hrun.
    unfold _ask_password, prompt_text in Hrun. rewrite Htyped in Hrun.
    discriminate. }
  destruct (ask_password_and_verify_step fuel a rest w Htyped _ _ eq_refl eq_refl)
    as [(_ & Hstep) | (Hfull & b & w2 & Hcheck & Hstep)];
    rewrite Hstep in Hrun.
  - destruct (IH _ Hrun) as [n Hn]. exists n.
    rewrite (check_password_pwned_same_net password w
               (warned "[red]Mot de passe vide, réessayez.[/red]"
                  (with_typed rest (asked "Mot de passe" w)))) by reflexivity.
    exact Hn.
  - pose proof (keeps_confirms_check_password_pwned _ _ _ _ Hcheck) as Hconf.
    pose proof (keeps_net_check_password_pwned _ _ _ _ Hcheck) as Hnet.
    cbn [confirms net with_typed asked with_terminal] in Hconf, Hnet.
    assert (Hflag : fst (_check_password_pwned (default EmptyString a) w) = Ok b).
    { rewrite (check_password_pwned_same_net _ w
                 (with_typed rest (asked "Mot de passe" w))) by reflexivity.
      now rewrite Hcheck. }
    destruct b.
    + destruct (confirms w2) as [|[] c] eqn:Hc; try discriminate.
      * injection Hrun as <- <-. exists 0. rewrite Hflag, <- Hconf. reflexivity.
      * destruct (IH _ Hrun) as [n Hn]. exists (S n).
        rewrite (check_password_pwned_same_net password w
                   (with_confirms c (at_override w2)))
          by (cbn; congruence).
        cbn [confirms with_confirms] in Hn. rewrite <- Hconf.
        cbn [repeat app]. f_equal. exact Hn.
    + injection Hrun as <- <-. exists 0. rewrite Hflag, Hconf. reflexivity.
Qed.


End Whole.

Section Traffic.
Context `{CryptoLib}.

(** ** What leaves over the network *)



Lemma sends_ranges_keeps {A : Type} (m : M A) : keeps sent m -> sends_ranges m.
Proof.
  intros Hm w r w' Hrun. exists []. rewrite (Hm _ _ _ Hrun), app_nil_r. auto.
Qed.

Lemma sends_ranges_bind {A B : Type} (m : M A) (k : A -> M B) :
  sends_ranges m -> (forall a, sends_ranges (k a)) -> sends_ranges (bind m k).
Proof.
  intros Hm Hk w r w'. unfold bind.
  destruct (m w) as [[a|e| |] w1] eqn:Hrun;
    destruct (Hm _ _ _ Hrun) as (new1 & Hsent1 & Hall1).
  - intros Hrest. destruct (Hk _ _ _ _ Hrest) as (new2 & Hsent2 & Hall2).
    exists (new1 ++ new2). rewrite Hsent2, Hsent1, app_assoc, forallb_app.
    split; [reflexivity|]. now rewrite Hall1, Hall2.
  - intros [= <- <-]. eauto.
  - intros [= <- <-]. eauto.
  - intros [= <- <-]. eauto.
Qed.

Lemma sends_ranges_try_except {A : Type} (m : M A) (h : exn -> M A) :
  sends_ranges m -> (forall e, sends_ranges (h e)) -> sends_ranges (try_except m h).
Proof.
  intros Hm Hh w r w'. unfold try_except.
  destruct (m w) as [[a|e| |] w1] eqn:Hrun;
    destruct (Hm _ _ _ Hrun) as (new1 & Hsent1 & Hall1).
  - intros [= <- <-]. eauto.
  - intros Hrest. destruct (Hh _ _ _ _ Hrest) as (new2 & Hsent2 & Hall2).
    exists (new1 ++ new2). rewrite Hsent2, Hsent1, app_assoc, forallb_app.
    split; [reflexivity|]. now rewrite Hall1, Hall2.
  - intros [= <- <-]. eauto.
  - intros [= <- <-]. eauto.
Qed.

Lemma sends_ranges_requests_get (url : string) :
  is_range_request url = true -> sends_ranges (requests_get url).
Proof.
  intros Hurl w r w'. unfold requests_get.
  destruct (net w url); intros [= <- <-]; exists [url]; cbn; rewrite Hurl; auto.
Qed.

Lemma pwned_url_is_range_request (password : string) :
  is_range_request (pwned_url (str_take 5 (sha1_hex_upper password))) = true.
Proof.
  destruct (sha1_hex_upper_shape password) as [Hlen Hhex].
  unfold is_range_request, pwned_url.
  set (prefix := str_take 5 (sha1_hex_upper password)).
  assert (Hprefix : String.length prefix = 5)
    by (unfold prefix; rewrite str_take_length; lia).
  rewrite startswith_app, str_app_length, Hprefix.
  replace (str_drop 37 ("https://api.pwnedpasswords.com/range/" ++ prefix))
    with prefix
    by (symmetry; apply (str_drop_app "https://api.pwnedpasswords.com/range/")).
  unfold prefix. rewrite str_forall_take by exact Hhex. reflexivity.
Qed.

(** A composed call sends what its parts send. *)
Ltac sends_step :=
  cbv beta zeta;
  first
    [ assumption
    | apply sends_ranges_keeps; solve [keeps_call]
    | apply sends_ranges_bind; [|intros ?]
    | apply sends_ranges_try_except; [|intros ?]
    | match goal with
      | |- sends_ranges (if ?b then _ else _) => destruct b
      | |- sends_ranges (match ?x with _ => _ end) => destruct x
      end ].

Lemma sends_ranges_check_password_pwned (password : string) :
  sends_ranges (_check_password_pwned password).
Proof.
  unfold _check_password_pwned. cbv zeta.
  apply sends_ranges_try_except; [|intros e; repeat sends_step].
  apply sends_ranges_bind;
    [apply sends_ranges_requests_get, pwned_url_is_range_request|].
  intros [code text]. repeat sends_step.
Qed.

Lemma sends_ranges_ask_password_and_verify (fuel : nat) :
  sends_ranges (_ask_password_and_verify fuel).
Proof.
  induction fuel as [|fuel IH]; cbn [_ask_password_and_verify].
  - repeat sends_step.
  - unfold _ask_password, _confirm.
    repeat first [exact IH | apply sends_ranges_check_password_pwned | sends_step].
Qed.

Lemma keeps_sent_is_already_encrypted (path : string) :
  keeps sent (_is_already_encrypted path).
Proof. unfold _is_already_encrypted. repeat keeps_step. Qed.

Lemma keeps_sent_encrypt_to (path output_path password : string) :
  keeps sent (encrypt_to path output_path password).
Proof. unfold encrypt_to, AESGCM, aesgcm_encrypt. repeat keeps_step. Qed.

Lemma keeps_sent_decrypt_to (path output_path : string) (key : bytes) :
  keeps sent (decrypt_to path output_path key).
Proof. unfold decrypt_to, AESGCM, aesgcm_decrypt. repeat keeps_step. Qed.

Lemma keeps_sent_decrypt_loop (fuel : nat) (path output_path : string) :
  keeps sent (decrypt_loop fuel path output_path).
Proof.
  induction fuel as [|fuel IH]; cbn [decrypt_loop].
  - repeat keeps_step.
  - unfold _ask_password, _confirm.
    repeat first [exact IH | apply keeps_sent_decrypt_to | keeps_step].
Qed.

Lemma keeps_sent_handle_decrypt (fuel : nat) : keeps sent (_handle_decrypt fuel).
Proof.
  unfold _handle_decrypt, _ask_file_path, _ask_output_path, _confirm.
  repeat first [ apply keeps_sent_is_already_encrypted
               | apply keeps_sent_decrypt_loop | keeps_step ].
Qed.

Lemma sends_ranges_handle_encrypt (fuel : nat) : sends_ranges (_handle_encrypt fuel).
Proof.
  unfold _handle_encrypt, _ask_file_path, _confirm.
  repeat first [ apply sends_ranges_ask_password_and_verify
               | apply sends_ranges_keeps, keeps_sent_is_already_encrypted
               | apply sends_ranges_keeps, keeps_sent_encrypt_to
               | sends_step ].
Qed.

(** X8: whatever the operator chooses and types, every request the
    program sends is a range request for five hexadecimal digits; no
    other URL is ever requested. *)
Theorem run_sends_range_requests_only (fuel : nat) (w : World) :
  exists new,
    sent (snd (run fuel w)) = sent w ++ new /\
    forallb is_range_request new = true.
Proof.
  assert (Hall : sends_ranges (run fuel)).
  { unfold run, _show_menu.
    repeat first [ apply sends_ranges_handle_encrypt
                 | apply sends_ranges_keeps, keeps_sent_handle_decrypt
                 | sends_step ]. }
  exact (Hall w _ _ (surjective_pairing _)).
Qed.

(** X9: the decrypt workflow is offline: however it runs and ends, it
    sends nothing. *)
Theorem handle_decrypt_sends_nothing (fuel : nat) (w : World) :
  sent (snd (_handle_decrypt fuel w)) = sent w.
Proof.
  destruct (_handle_decrypt fuel w) as [r w'] eqn:Hrun.
  exact (keeps_sent_handle_decrypt fuel _ _ _ Hrun).
Qed.

End Traffic.





Section Paths.
Context `{CryptoLib}.

(** ** The paths a workflow touches *)







Lemma keeps_typed_is_already_encrypted (path : string) :
  keeps typed (_is_already_encrypted path).
Proof. unfold _is_already_encrypted. repeat keeps_step. Qed.


End Paths.

Section Cycle.
Context `{CryptoLib}.

(** ** Success, the deletion questions and the full cycle *)

Lemma path_neq_container (path : string) : path <> (path ++ ".yjch")%string.
Proof.
  intros Heq. apply (f_equal String.length) in Heq.
  rewrite str_app_length in Heq. simpl in Heq. lia.
Qed.

Lemma output_default_of_container (path : string) :
  output_default (path ++ ".yjch") = path.
Proof.
  rewrite <- (str_app_nil_r (path ++ ".yjch")), str_app_assoc.
  apply output_default_last. intros (a & c & Hocc).
  apply (f_equal String.length) in Hocc.
  rewrite !str_app_length in Hocc. simpl in Hocc. lia.
Qed.

Lemma container_of_same (password : string) (data : bytes) (w1 w2 : World) :
  entropy w1 = entropy w2 -> drawn w1 = drawn w2 ->
  container_of password data w1 = container_of password data w2.
Proof. intros He Hd. unfold container_of, next_iv. now rewrite He, Hd. Qed.

(** Lines 81 to 114: from the key derivation to the end of the encrypt
    workflow, in a world [we] where the chosen file can be read. *)
Lemma handle_encrypt_tail_run (path password : string) (data : bytes)
      (yes : bool) (c : list bool) (we : World) :
  fs we !! path = Some (File data) ->
  fs we !! (path ++ ".yjch")%string <> Some Dir ->
  open_faults we = [] ->
  confirms we = yes :: c ->
  exists w',
    (encrypt_to path (path ++ ".yjch") password;;
     console_print ("[bold green]Fichier chiffré créé :[/bold green] "
                    ++ (path ++ ".yjch"));;
     delete ← _confirm ("Supprimer le fichier original " ++ path ++ " ?");
     (if delete then
        os_remove path;;
        console_print "[bold red]Fichier original supprimé.[/bold red]"
      else ret tt);;
     ret EncryptDone) we = (Ok EncryptDone, w') /\
    fs w' = (if yes then delete path else id)
              (<[(path ++ ".yjch")%string := File (container_of password data we)]> (fs we)) /\
    typed w' = typed we /\ confirms w' = c /\ open_faults w' = [].
Proof.
  intros Hfs Hdir Hfaults Hconf.
  unfold bind at 1.
  rewrite (encrypt_to_run path _ password data we Hfs Hfaults Hdir).
  unfold bind at 1. unfold console_print at 1.
  unfold bind at 1. unfold _confirm, prompt_confirm.
  cbn [confirms with_terminal with_fs with_drawn]. rewrite Hconf.
  destruct yes.
  - unfold bind at 1. unfold bind at 1. unfold os_remove.
    cbn [fs with_confirms with_terminal with_fs with_drawn].
    rewrite lookup_insert_ne by (apply not_eq_sym, path_neq_container).
    rewrite Hfs. unfold console_print, ret.
    eexists. split; [reflexivity|].
    cbn [fs typed confirms open_faults with_confirms with_terminal with_fs with_drawn].
    repeat split; assumption || reflexivity.
  - unfold bind at 1. unfold ret.
    eexists. split; [reflexivity|].
    cbn [fs typed confirms open_faults with_confirms with_terminal with_fs with_drawn].
    repeat split; assumption || reflexivity.
Qed.

(** The encrypt workflow on a regular file that is no container, once a
    password is accepted; [prior] is what the output path holds, and the
    operator agrees to overwrite it if it holds a file. *)
Lemma handle_encrypt_done_run (fuel : nat) (path password : string) (data : bytes)
      (rest : list (option string)) (prior : option bytes) (yes : bool)
      (c : list bool) (w wc : World) :
  typed w = Some path :: rest ->
  path <> EmptyString ->
  fs w !! path = Some (File data) ->
  pending_fault w = None ->
  take 8 data <> HEADER_SIGNATURE ->
  _ask_password_and_verify fuel
    (with_open_faults (tl (open_faults w))
       (with_typed rest (asked "Chemin du fichier" w))) = (Ok password, wc) ->
  fs w !! (path ++ ".yjch")%string = File <$> prior ->
  open_faults wc = [] ->
  confirms wc = (match prior with Some _ => [true] | None => [] end) ++ yes :: c ->
  exists w',
    _handle_encrypt fuel w = (Ok EncryptDone, w') /\
    fs w' = (if yes then delete path else id)
              (<[(path ++ ".yjch")%string := File (container_of password data wc)]> (fs w)) /\
    typed w' = typed wc /\ confirms w' = c /\ open_faults w' = [].
Proof.
  intros Htyped Hne Hfs Hfault Hsig Hpw Hprior Hfaults Hconf.
  pose proof (keeps_fs_ask_password_and_verify _ _ _ _ Hpw) as Hfsc.
  cbn [fs with_open_faults with_typed asked with_terminal] in Hfsc.
  unfold _handle_encrypt. to_probe Htyped Hne Hfs Hfault.
  rewrite bool_decide_eq_false_2 by exact Hsig. cbv beta iota.
  unfold bind at 1.
  match goal with
  | |- context [_ask_password_and_verify fuel ?x] =>
      change x with (with_open_faults (tl (open_faults w))
                       (with_typed rest (asked "Chemin du fichier" w)))
  end.
  rewrite Hpw.
  unfold bind at 1. unfold os_path_exists. rewrite Hfsc, Hprior.
  destruct prior as [old|]; cbn [fmap option_fmap option_map app] in Hconf |- *.
  - unfold bind at 1. unfold bind at 1. unfold _confirm at 1, prompt_confirm at 1.
    rewrite Hconf. unfold ret at 1. cbn [negb]. cbv beta iota.
    set (we := with_confirms (yes :: c) _).
    destruct (handle_encrypt_tail_run path password data yes c we)
      as (w' & Hrun & Hfs' & Htyped' & Hconf' & Hfaults').
    + unfold we. cbn [fs with_confirms with_terminal]. now rewrite Hfsc.
    + unfold we. cbn [fs with_confirms with_terminal]. rewrite Hfsc, Hprior.
      discriminate.
    + exact Hfaults.
    + reflexivity.
    + exists w'. split; [exact Hrun|].
      split; [rewrite Hfs'; unfold we; cbn [fs with_confirms with_terminal];
              rewrite Hfsc; reflexivity|].
      repeat split; assumption.
  - unfold bind at 1. unfold ret at 1. cbv beta iota.
    destruct (handle_encrypt_tail_run path password data yes c wc)
      as (w' & Hrun & Hfs' & Htyped' & Hconf' & Hfaults').
    + now rewrite Hfsc.
    + rewrite Hfsc, Hprior. discriminate.
    + exact Hfaults.
    + exact Hconf.
    + exists w'. split; [exact Hrun|].
      split; [rewrite Hfs', Hfsc; reflexivity|].
      repeat split; assumption.
Qed.

(** The decrypt workflow on a container, with the right password at the
    first attempt. *)
Lemma handle_decrypt_done_run (fuel : nat) (path password : string)
      (b : option string) (data plain : bytes) (rest : list (option string))
      (yes : bool) (c : list bool) (w : World) :
  typed w = Some path :: b :: Some password :: rest ->
  path <> EmptyString ->
  password <> EmptyString ->
  confirms w = yes :: c ->
  open_faults w = [] ->
  fs w !! path = Some (File data) ->
  take 8 data = HEADER_SIGNATURE ->
  36 <= length data ->
  gcm_decrypt (_derive_key password) (take 12 (drop 8 data)) (drop 20 data)
  = Some plain ->
  let output_path := default (output_default path) b in
  fs w !! output_path <> Some Dir ->
  exists w',
    _handle_decrypt (S fuel) w = (Ok DecryptDone, w') /\
    fs w' = (if yes then delete path else id)
              (<[output_path := File plain]> (fs w)).
Proof.
  intros Htyped Hpath Hpw Hconf Hfaults Hfs Hsig Hlen Hdec output_path Hdir.
  assert (Hfault : pending_fault w = None) by (unfold pending_fault; now rewrite Hfaults).
  unfold _handle_decrypt. to_probe Htyped Hpath Hfs Hfault.
  rewrite bool_decide_eq_true_2 by exact Hsig. cbv beta iota. cbn [negb].
  unfold bind at 1. unfold _ask_output_path, prompt_text.
  cbn [typed with_open_faults with_typed with_terminal].
  replace (match b with
           | Some s => (Ok s, _)
           | None => (Ok (output_default path), _)
           end) with (Ok output_path,
                      with_typed (Some password :: rest)
                        (asked "Chemin fichier de sortie"
                           (with_open_faults (tl (open_faults w))
                              (with_typed (b :: Some password :: rest)
                                 (asked "Chemin du fichier" w)))))
    by (destruct b; reflexivity).
  cbv beta iota. unfold bind at 1.
  erewrite decrypt_loop_succeeded; cycle 1.
  - reflexivity.
  - exact Hpw.
  - apply (decrypt_to_run _ _ _ (take 12 (drop 8 data)) (drop 20 data) plain).
    + cbn [fs with_open_faults with_typed with_terminal asked].
      rewrite Hfs. f_equal. f_equal. now apply container_split.
    + cbn [open_faults with_open_faults with_typed with_terminal asked].
      now rewrite Hfaults.
    + apply sha256_length.
    + rewrite length_take, length_drop. lia.
    + rewrite length_drop. lia.
    + exact Hdec.
    + cbn [fs with_open_faults with_typed with_terminal asked]. exact Hdir.
  - unfold bind at 1. unfold console_print at 1.
    unfold bind at 1. unfold _confirm, prompt_confirm.
    cbn [confirms with_open_faults with_typed with_terminal asked with_fs].
    rewrite Hconf. destruct yes.
    + unfold bind at 1. unfold bind at 1. unfold os_remove.
      cbn [fs with_confirms with_open_faults with_typed with_terminal asked with_fs].
      assert (Hthere : exists old,
                 <[output_path := File plain]> (fs w) !! path = Some (File old)).
      { destruct (decide (output_path = path)) as [->|Hdiff].
        - rewrite lookup_insert_eq. eauto.
        - rewrite lookup_insert_ne by exact Hdiff. eauto. }
      destruct Hthere as [old ->]. unfold console_print, ret.
      eexists. split; reflexivity.
    + unfold bind at 1. unfold ret. eexists. split; reflexivity.
Qed.


Lemma keeps_open_faults_check_password_pwned (password : string) :
  keeps open_faults (_check_password_pwned password).
Proof. unfold _check_password_pwned. repeat keeps_step. Qed.

Lemma keeps_entropy_check_password_pwned (password : string) :
  keeps entropy (_check_password_pwned password).
Proof. unfold _check_password_pwned. repeat keeps_step. Qed.

Lemma keeps_drawn_check_password_pwned (password : string) :
  keeps drawn (_check_password_pwned password).
Proof. unfold _check_password_pwned. repeat keeps_step. Qed.

(** The password loop on a password the breach check does not flag: one
    prompt, one request, and the password is returned. *)
Lemma ask_password_unflagged_run (fuel : nat) (password : string)
      (rest : list (option string)) (w : World) :
  typed w = Some password :: rest ->
  password <> EmptyString ->
  fst (_check_password_pwned password w) = Ok false ->
  exists wc,
    _ask_password_and_verify (S fuel) w = (Ok password, wc) /\
    fs wc = fs w /\ typed wc = rest /\ confirms wc = confirms w /\
    open_faults wc = open_faults w /\
    entropy wc = entropy w /\ drawn wc = drawn w.
Proof.
  intros Htyped Hne Hclean.
  destruct (_check_password_pwned password
              (with_typed rest (asked "Mot de passe" w))) as [r wc] eqn:Hcheck.
  assert (Hr : r = Ok false).
  { rewrite <- Hclean.
    rewrite (check_password_pwned_same_net password w
               (with_typed rest (asked "Mot de passe" w))) by reflexivity.
    now rewrite Hcheck. }
  subst r. exists wc.
  split; [exact (ask_password_and_verify_accepts _ _ _ _ _ Htyped Hne Hcheck)|].
  split; [exact (keeps_fs_check_password_pwned _ _ _ _ Hcheck)|].
  split; [exact (keeps_typed_check_password_pwned _ _ _ _ Hcheck)|].
  split; [exact (keeps_confirms_check_password_pwned _ _ _ _ Hcheck)|].
  split; [exact (keeps_open_faults_check_password_pwned _ _ _ _ Hcheck)|].
  split; [exact (keeps_entropy_check_password_pwned _ _ _ _ Hcheck)|].
  exact (keeps_drawn_check_password_pwned _ _ _ _ Hcheck).
Qed.

(** The encrypt workflow from the first prompt to its end, for a
    password the breach check does not flag and a free output path. *)
Lemma handle_encrypt_unflagged_run (fuel : nat) (path password : string)
      (data : bytes) (rest : list (option string)) (prior : option bytes)
      (yes : bool) (c : list bool) (w : World) :
  typed w = Some path :: Some password :: rest ->
  confirms w = (match prior with Some _ => [true] | None => [] end) ++ yes :: c ->
  open_faults w = [] ->
  path <> EmptyString ->
  password <> EmptyString ->
  fs w !! path = Some (File data) ->
  take 8 data <> HEADER_SIGNATURE ->
  fs w !! (path ++ ".yjch")%string = File <$> prior ->
  fst (_check_password_pwned password w) = Ok false ->
  exists w',
    _handle_encrypt (S fuel) w = (Ok EncryptDone, w') /\
    fs w' = (if yes then delete path else id)
              (<[(path ++ ".yjch")%string := File (container_of password data w)]> (fs w)) /\
    typed w' = rest /\ confirms w' = c /\ open_faults w' = [].
Proof.
  intros Htyped Hconf Hfaults Hpath Hpw Hfs Hsig Hfree Hclean.
  set (w0 := with_open_faults (tl (open_faults w))
               (with_typed (Some password :: rest) (asked "Chemin du fichier" w))).
  destruct (ask_password_unflagged_run fuel password rest w0)
    as (wc & Hloop & Hfsc & Htypedc & Hconfc & Hfaultsc & Hentropy & Hdrawn).
  { reflexivity. }
  { exact Hpw. }
  { rewrite <- Hclean. now apply check_password_pwned_same_net. }
  destruct (handle_encrypt_done_run (S fuel) path password data
              (Some password :: rest) prior yes c w wc)
    as (w' & Hrun & Hfs' & Htyped' & Hconf' & Hfaults').
  - exact Htyped.
  - exact Hpath.
  - exact Hfs.
  - unfold pending_fault. now rewrite Hfaults.
  - exact Hsig.
  - exact Hloop.
  - exact Hfree.
  - rewrite Hfaultsc. unfold w0. cbn [open_faults with_open_faults]. now rewrite Hfaults.
  - rewrite Hconfc. exact Hconf.
  - exists w'. split; [exact Hrun|].
    rewrite (container_of_same password data w wc)
      by (rewrite ?Hentropy, ?Hdrawn; reflexivity).
    split; [exact Hfs'|]. split; [congruence|]. split; assumption.
Qed.

(** X12: after a successful encryption the container is at the
    [.yjch] path, and the original is removed exactly when the operator
    answers yes to the deletion question; on no it is still there,
    unchanged. *)
Theorem handle_encrypt_removes_original_on_yes_only (fuel : nat)
        (path password : string) (data : bytes) (rest : list (option string))
        (yes : bool) (c : list bool) (w : World) :
  typed w = Some path :: Some password :: rest ->
  confirms w = yes :: c ->
  open_faults w = [] ->
  path <> EmptyString ->
  password <> EmptyString ->
  fs w !! path = Some (File data) ->
  take 8 data <> HEADER_SIGNATURE ->
  fs w !! (path ++ ".yjch")%string = None ->
  fst (_check_password_pwned password w) = Ok false ->
  exists w',
    _handle_encrypt (S fuel) w = (Ok EncryptDone, w') /\
    fs w' !! (path ++ ".yjch")%string = Some (File (container_of password data w)) /\
    fs w' !! path = (if yes then None else Some (File data)).
Proof.
  intros Htyped Hconf Hfaults Hpath Hpw Hfs Hsig Hfree Hclean.
  destruct (handle_encrypt_unflagged_run fuel path password data rest None yes c w)
    as (w' & Hrun & Hfs' & _); try assumption.
  exists w'. split; [exact Hrun|]. rewrite Hfs'.
  pose proof (path_neq_container path) as Hdiff.
  destruct yes; cbn [id].
  - rewrite lookup_delete_ne by exact Hdiff.
    rewrite lookup_insert_eq, lookup_delete_eq. split; reflexivity.
  - rewrite lookup_insert_eq, lookup_insert_ne by (apply not_eq_sym; exact Hdiff).
    split; [reflexivity | exact Hfs].
Qed.

(** X13: an operator who agrees to overwrite an existing file at the
    [.yjch] path gets a container of the chosen file there: the old
    content is replaced as a whole, none of it is left. *)
Theorem handle_encrypt_overwrites_on_yes (fuel : nat) (path password : string)
        (data old : bytes) (rest : list (option string)) (yes : bool)
        (c : list bool) (w : World) :
  typed w = Some path :: Some password :: rest ->
  confirms w = true :: yes :: c ->
  open_faults w = [] ->
  path <> EmptyString ->
  password <> EmptyString ->
  fs w !! path = Some (File data) ->
  take 8 data <> HEADER_SIGNATURE ->
  fs w !! (path ++ ".yjch")%string = Some (File old) ->
  fst (_check_password_pwned password w) = Ok false ->
  exists w',
    _handle_encrypt (S fuel) w = (Ok EncryptDone, w') /\
    fs w' !! (path ++ ".yjch")%string = Some (File (container_of password data w)) /\
    confirms w' = c.
Proof.
  intros Htyped Hconf Hfaults Hpath Hpw Hfs Hsig Hold Hclean.
  destruct (handle_encrypt_unflagged_run fuel path password data rest (Some old)
              yes c w)
    as (w' & Hrun & Hfs' & _ & Hconf' & _); try assumption.
  exists w'. split; [exact Hrun|]. split; [|exact Hconf']. rewrite Hfs'.
  pose proof (path_neq_container path) as Hdiff.
  destruct yes; cbn [id].
  - rewrite lookup_delete_ne by exact Hdiff. apply lookup_insert_eq.
  - apply lookup_insert_eq.
Qed.


(** X15: the two workflows are inverse to each other on the file system:
    encrypting a file (password not flagged, original deleted) and then
    decrypting the container to the default path with the same password
    (container deleted) leaves every path holding what it held at the
    start. *)
Theorem encrypt_then_decrypt_restores (fuel fuel' : nat) (path password : string)
        (data : bytes) (rest : list (option string)) (c : list bool) (w : World) :
  typed w = Some path :: Some password
            :: Some (path ++ ".yjch")%string :: None :: Some password :: rest ->
  confirms w = true :: true :: c ->
  open_faults w = [] ->
  path <> EmptyString ->
  password <> EmptyString ->
  fs w !! path = Some (File data) ->
  take 8 data <> HEADER_SIGNATURE ->
  fs w !! (path ++ ".yjch")%string = None ->
  fst (_check_password_pwned password w) = Ok false ->
  exists w1 w2,
    _handle_encrypt (S fuel) w = (Ok EncryptDone, w1) /\
    fs w1 !! path = None /\
    _handle_decrypt (S fuel') w1 = (Ok DecryptDone, w2) /\
    fs w2 = fs w.
Proof.
  intros Htyped Hconf Hfaults Hpath Hpw Hfs Hsig Hfree Hclean.
  pose proof (path_neq_container path) as Hdiff.
  destruct (handle_encrypt_unflagged_run fuel path password data _ None true (true :: c) w
              Htyped Hconf Hfaults Hpath Hpw Hfs Hsig Hfree Hclean)
    as (w1 & Hrun1 & Hfs1 & Htyped1 & Hconf1 & Hfaults1).
  assert (Hgone : fs w1 !! path = None) by (rewrite Hfs1; apply lookup_delete_eq).
  assert (Hcont : fs w1 !! (path ++ ".yjch")%string
                  = Some (File (container_of password data w))).
  { rewrite Hfs1, lookup_delete_ne by exact Hdiff. apply lookup_insert_eq. }
  destruct (handle_decrypt_done_run fuel' (path ++ ".yjch") password None
              (container_of password data w) data rest true c w1)
    as (w2 & Hrun2 & Hfs2).
  - exact Htyped1.
  - intros Hempty. apply (f_equal String.length) in Hempty.
    rewrite str_app_length in Hempty. simpl in Hempty. lia.
  - exact Hpw.
  - exact Hconf1.
  - exact Hfaults1.
  - exact Hcont.
  - unfold container_of. now apply take_app_length'.
  - unfold container_of.
    rewrite !length_app, next_iv_length, gcm_encrypt_length. simpl. lia.
  - unfold container_of.
    replace (take 12 (drop 8 (HEADER_SIGNATURE ++ next_iv w ++ _)))
      with (next_iv w)
      by (rewrite (drop_app_length' _ _ 8) by reflexivity;
          symmetry; apply take_app_length'; exact (next_iv_length w)).
    replace (drop 20 (HEADER_SIGNATURE ++ next_iv w ++ _))
      with (gcm_encrypt (_derive_key password) (next_iv w) data)
      by (rewrite app_assoc; symmetry; apply drop_app_length';
          rewrite length_app, next_iv_length; reflexivity).
    apply gcm_decrypt_encrypt; [apply sha256_length | exact (next_iv_length w)].
  - cbn [default from_option id]. rewrite output_default_of_container, Hgone.
    discriminate.
  - exists w1, w2. split; [exact Hrun1|]. split; [exact Hgone|].
    split; [exact Hrun2|].
    rewrite Hfs2. cbn [default from_option id].
    rewrite output_default_of_container, Hfs1.
    apply map_eq. intros p.
    destruct (decide (p = (path ++ ".yjch")%string)) as [->|Hp1].
    + rewrite lookup_delete_eq. symmetry. exact Hfree.
    + rewrite lookup_delete_ne by congruence.
      destruct (decide (p = path)) as [->|Hp2].
      * rewrite lookup_insert_eq. symmetry. exact Hfs.
      * rewrite lookup_insert_ne by congruence.
        rewrite lookup_delete_ne by congruence.
        now rewrite lookup_insert_ne by congruence.
Qed.

End Cycle.

(** ** The loops read the operator's script *)


Lemma shrinks_keeps {A : Type} (m : M A) : keeps typed m -> shrinks m.
Proof. intros Hm w r w' Hrun. now rewrite (Hm _ _ _ Hrun). Qed.

Lemma shrinks_bind {A B : Type} (m : M A) (k : A -> M B) :
  shrinks m -> (forall a, shrinks (k a)) -> shrinks (bind m k).
Proof.
  intros Hm Hk w r w'. unfold bind.
  destruct (m w) as [[a|e| |] w1] eqn:Hrun; pose proof (Hm _ _ _ Hrun) as H1.
  - intros Hrest. pose proof (Hk _ _ _ _ Hrest). lia.
  - now intros [= <- <-].
  - now intros [= <- <-].
  - now intros [= <- <-].
Qed.

Lemma shrinks_try_except {A : Type} (m : M A) (h : exn -> M A) :
  shrinks m -> (forall e, shrinks (h e)) -> shrinks (try_except m h).
Proof.
  intros Hm Hh w r w'. unfold try_except.
  destruct (m w) as [[a|e| |] w1] eqn:Hrun; pose proof (Hm _ _ _ Hrun) as H1.
  - now intros [= <- <-].
  - intros Hrest. pose proof (Hh _ _ _ _ Hrest). lia.
  - now intros [= <- <-].
  - now intros [= <- <-].
Qed.

Lemma shrinks_prompt_text (message default : string) :
  shrinks (prompt_text message default).
Proof.
  intros w r w'. unfold prompt_text.
  destruct (typed w) as [|[s|] rest] eqn:Htyped; intros [= <- <-];
    cbn [typed with_typed with_terminal asked]; rewrite ?Htyped; cbn [length]; lia.
Qed.

Lemma ends_within_bind {A B : Type} (n : nat) (m : M A) (k : A -> M B) :
  shrinks m -> ends_within n m -> (forall a, ends_within n (k a)) ->
  ends_within n (bind m k).
Proof.
  intros Hshrinks Hm Hk w Hlen. specialize (Hm w Hlen). unfold bind.
  destruct (m w) as [[a|e| |] w1] eqn:Hrun; cbn [fst] in *; try discriminate.
  - apply Hk. pose proof (Hshrinks _ _ _ Hrun). lia.
  - congruence.
Qed.

Lemma ends_within_try_except {A : Type} (n : nat) (m : M A) (h : exn -> M A) :
  shrinks m -> ends_within n m -> (forall e, ends_within n (h e)) ->
  ends_within n (try_except m h).
Proof.
  intros Hshrinks Hm Hh w Hlen. specialize (Hm w Hlen). unfold try_except.
  destruct (m w) as [[a|e| |] w1] eqn:Hrun; cbn [fst] in *; try discriminate.
  - apply Hh. pose proof (Hshrinks _ _ _ Hrun). lia.
  - congruence.
Qed.

(** A single call into the operating system or a library is no loop. *)
Ltac ends_call :=
  let w := fresh "w" in
  intros w _;
  rewrite ?open_rb_run, ?open_wb_run; cbv zeta;
  unfold console_print, prompt_text, prompt_confirm, os_path_isfile,
    os_path_exists, os_path_getsize, os_urandom, requests_get, os_remove,
    write, ret, raise;
  repeat match goal with
         | |- context [match ?x with _ => _ end] =>
             lazymatch x with
             | context [match _ with _ => _ end] => fail
             | _ => destruct x
             end
         end;
  cbn [fst]; discriminate.

Ltac shrinks_step :=
  cbv beta zeta;
  first
    [ assumption
    | apply shrinks_prompt_text
    | apply shrinks_keeps; solve [keeps_call]
    | apply shrinks_bind; [|intros ?]
    | apply shrinks_try_except; [|intros ?]
    | match goal with
      | |- shrinks (if ?b then _ else _) => destruct b
      | |- shrinks (match ?x with _ => _ end) => destruct x
      end ].

Ltac ends_step :=
  cbv beta zeta;
  first
    [ assumption
    | solve [ends_call]
    | apply ends_within_bind; [solve [repeat shrinks_step] | |intros ?]
    | apply ends_within_try_except; [solve [repeat shrinks_step] | |intros ?]
    | match goal with
      | |- ends_within _ (if ?b then _ else _) => destruct b
      | |- ends_within _ (match ?x with _ => _ end) => destruct x
      end ].

Section Pace.
Context `{CryptoLib}.

Lemma shrinks_check_password_pwned (password : string) :
  shrinks (_check_password_pwned password).
Proof. apply shrinks_keeps, keeps_typed_check_password_pwned. Qed.

Lemma shrinks_ask_password_and_verify (fuel : nat) :
  shrinks (_ask_password_and_verify fuel).
Proof.
  induction fuel as [|fuel IH]; cbn [_ask_password_and_verify].
  - intros w r w' [= <- <-]. lia.
  - unfold _ask_password, _confirm.
    repeat first [exact IH | apply shrinks_check_password_pwned | shrinks_step].
Qed.

Lemma shrinks_is_already_encrypted (path : string) :
  shrinks (_is_already_encrypted path).
Proof. apply shrinks_keeps, keeps_typed_is_already_encrypted. Qed.

Lemma shrinks_decrypt_loop (fuel : nat) (path output_path : string) :
  shrinks (decrypt_loop fuel path output_path).
Proof.
  induction fuel as [|fuel IH]; cbn [decrypt_loop].
  - intros w r w' [= <- <-]. lia.
  - unfold _ask_password, _confirm.
    repeat first [ exact IH
                 | apply shrinks_keeps, keeps_typed_decrypt_to
                 | shrinks_step ].
Qed.

Lemma shrinks_encrypt_to (path output_path password : string) :
  shrinks (encrypt_to path output_path password).
Proof.
  apply shrinks_keeps. unfold encrypt_to, AESGCM, aesgcm_encrypt.
  repeat keeps_step.
Qed.

Lemma shrinks_handle_encrypt (fuel : nat) : shrinks (_handle_encrypt fuel).
Proof.
  unfold _handle_encrypt, _ask_file_path, _confirm.
  repeat first [ apply shrinks_is_already_encrypted
               | apply shrinks_ask_password_and_verify
               | apply shrinks_encrypt_to
               | shrinks_step ].
Qed.

Lemma shrinks_handle_decrypt (fuel : nat) : shrinks (_handle_decrypt fuel).
Proof.
  unfold _handle_decrypt, _ask_file_path, _ask_output_path, _confirm.
  repeat first [ apply shrinks_is_already_encrypted
               | apply shrinks_decrypt_loop
               | shrinks_step ].
Qed.

Lemma ends_within_is_already_encrypted (n : nat) (path : string) :
  ends_within n (_is_already_encrypted path).
Proof. unfold _is_already_encrypted. repeat ends_step. Qed.

Lemma ends_within_encrypt_to (n : nat) (path output_path password : string) :
  ends_within n (encrypt_to path output_path password).
Proof.
  unfold encrypt_to, AESGCM, aesgcm_encrypt. repeat ends_step.
Qed.

Lemma ends_within_handle_encrypt (fuel : nat) :
  ends_within fuel (_handle_encrypt fuel).
Proof.
  unfold _handle_encrypt, _ask_file_path, _confirm.
  repeat first
    [ apply ends_within_is_already_encrypted
    | apply ends_within_encrypt_to
    | exact (ask_password_and_verify_enough_fuel fuel)
    | apply ends_within_bind;
      [ first [ apply shrinks_is_already_encrypted
              | apply shrinks_ask_password_and_verify
              | apply shrinks_encrypt_to
              | solve [repeat shrinks_step] ] | | intros ? ]
    | ends_step ].
Qed.

Lemma ends_within_handle_decrypt (fuel : nat) :
  ends_within fuel (_handle_decrypt fuel).
Proof.
  unfold _handle_decrypt, _ask_file_path, _ask_output_path, _confirm.
  repeat first
    [ apply ends_within_is_already_encrypted
    | exact (fun w => decrypt_loop_enough_fuel fuel _ _ w)
    | apply ends_within_bind;
      [ first [ apply shrinks_is_already_encrypted
              | apply shrinks_decrypt_loop
              | solve [repeat shrinks_step] ] | | intros ? ]
    | ends_step ].
Qed.

(** X16: every iteration of the two password loops reads one answer of
    the operator, so the program never spins on its own: run on a script
    of fewer answers than the loops may iterate, it returns, waits for the
    next answer, or raises. *)
Theorem run_ends_with_script (fuel : nat) (w : World) :
  length (typed w) < fuel ->
  fst (run fuel w) = Ok tt \/ fst (run fuel w) = Blocked \/
  exists e, fst (run fuel w) = Raise e.
Proof.
  intros Hlen.
  assert (Hends : ends_within fuel (run fuel)).
  { unfold run, _show_menu.
    repeat first
      [ apply ends_within_handle_encrypt
      | apply ends_within_handle_decrypt
      | apply ends_within_bind;
        [ first [ apply shrinks_handle_encrypt
                | apply shrinks_handle_decrypt
                | solve [repeat shrinks_step] ] | | intros ? ]
      | ends_step ]. }
  specialize (Hends w Hlen).
  destruct (fst (run fuel w)) as [[]|e| |].
  - left. reflexivity.
  - right. right. exists e. reflexivity.
  - right. left. reflexivity.
  - contradiction.
Qed.

(** X17: a container cut short of 36 bytes (signature, nonce and tag) is
    never decrypted: whatever the key, the decrypt block raises before it
    opens the output path, and the file system is as it was. *)
Theorem decrypt_to_truncated_container (path output_path : string)
        (key data : bytes) (w : World) :
  fs w !! path = Some (File data) ->
  length data < 36 ->
  exists e w',
    decrypt_to path output_path key w = (Raise e, w') /\ fs w' = fs w.
Proof.
  intros Hfs Hshort.
  unfold decrypt_to. unfold bind at 1. rewrite open_rb_run. cbv zeta.
  destruct (pending_fault w) as [e|]; [eexists _, _; split; reflexivity|].
  rewrite Hfs.
  pose proof (read_container data) as Hread. cbv zeta in Hread.
  destruct (read IV_LEN (seek HEADER_LEN (mkReader data 0))) as [iv fin].
  assert (Hrest : fst (read_all fin) = drop 20 data) by congruence.
  rewrite Hrest. clear Hread Hrest.
  unfold bind at 1. unfold AESGCM.
  destruct (bool_decide (length key ∈ [16; 24; 32]));
    [|eexists _, _; split; reflexivity].
  unfold ret at 1. unfold bind at 1. unfold aesgcm_decrypt.
  destruct (nonce_ok iv); [|eexists _, _; split; reflexivity].
  rewrite bool_decide_eq_true_2 by (rewrite length_drop; lia).
  eexists _, _; split; reflexivity.
Qed.

End Pace.

(** ** What a workflow leaves behind when it does not complete *)





Section Unfinished.
Context `{CryptoLib}.


(** X19: the encrypt workflow changes the file system only when it
    completes: a run that returns through one of its early [return]s (not
    found, already encrypted, cancelled) leaves every file as it was. *)
Theorem handle_encrypt_changes_only_when_done (fuel : nat) (w w' : World)
        (exit : encrypt_exit) :
  _handle_encrypt fuel w = (Ok exit, w') ->
  exit <> EncryptDone ->
  fs w' = fs w.
Proof.
  intros Hrun Hexit. unfold _handle_encrypt in Hrun.
  apply bind_ok_inv in Hrun as (path & wa & Hask & Hrun).
  apply keeps_fs_prompt_text in Hask.
  apply bind_ok_inv in Hrun as (isfile & wa' & Hisfile & Hrun).
  assert (wa' = wa) by (unfold os_path_isfile in Hisfile; congruence).
  subst wa'. clear Hisfile.
  destruct (falsy path || negb isfile).
  { apply bind_ok_inv in Hrun as ([] & wp & [= <-] & [= _ <-]). exact Hask. }
  apply bind_ok_inv in Hrun as (already & wb & Hprobe & Hrun).
  apply keeps_fs_is_already_encrypted in Hprobe as Hfsb.
  destruct already.
  { apply bind_ok_inv in Hrun as ([] & wp & [= <-] & [= _ <-]).
    cbn [fs with_terminal]. congruence. }
  apply bind_ok_inv in Hrun as (password & wc & Hpw & Hrun).
  apply keeps_fs_ask_password_and_verify in Hpw.
  apply bind_ok_inv in Hrun as (present & wc' & Hpresent & Hrun).
  assert (wc' = wc) by (unfold os_path_exists in Hpresent; congruence).
  subst wc'. clear Hpresent.
  apply bind_ok_inv in Hrun as (declined & wd & Hdecl & Hrun).
  assert (Hfsd : fs wd = fs wc).
  { destruct present.
    - apply bind_ok_inv in Hdecl as (overwrite & wx & Hconf & [= <- <-]).
      now apply keeps_fs_prompt_confirm in Hconf.
    - now injection Hdecl as <- <-. }
  destruct declined.
  - apply bind_ok_inv in Hrun as ([] & wp & [= <-] & [= _ <-]).
    cbn [fs with_terminal]. congruence.
  - apply bind_ok_inv in Hrun as (? & ? & _ & Hrun).
    apply bind_ok_inv in Hrun as (? & ? & _ & Hrun).
    apply bind_ok_inv in Hrun as (? & ? & _ & Hrun).
    apply bind_ok_inv in Hrun as (? & ? & _ & [= <- _]).
    contradiction.
Qed.


End Unfinished.

(** ** The reference implementations meet the contract *)

Lemma be_bytes_length (len : nat) (n : N) : length (be_bytes len n) = len.
Proof.
  revert n. induction len as [|len IH]; intros n; [reflexivity|].
  cbn [be_bytes]. rewrite length_app, IH. simpl. lia.
Qed.

Lemma ref_sha1_length (m : bytes) : length (Sha.sha1 m) = 20.
Proof.
  unfold Sha.sha1.
  destruct (fold_left _ _ _) as [[[[h0 h1] h2] h3] h4].
  rewrite !length_app, !be_bytes_length. reflexivity.
Qed.

Lemma ref_sha256_length (m : bytes) : length (Sha.sha256 m) = 32.
Proof.
  unfold Sha.sha256.
  destruct (fold_left _ _ _) as [[[[[[[s0 s1] s2] s3] s4] s5] s6] s7].
  rewrite !length_app, !be_bytes_length. reflexivity.
Qed.

Lemma N_of_byte_of_N (n : N) : (n < 256)%N -> N_of_byte (byte_of_N n) = n.
Proof.
  intros Hn. unfold byte_of_N, N_of_byte. rewrite N.mod_small by exact Hn.
  destruct (Byte.of_N n) as [b|] eqn:Hb.
  - now apply Byte.to_of_N.
  - apply Byte.of_N_None_iff in Hb. lia.
Qed.

Lemma byte_of_N_of_byte (b : byte) : byte_of_N (N_of_byte b) = b.
Proof.
  unfold byte_of_N, N_of_byte.
  pose proof (Byte.to_N_bounded b) as Hb.
  rewrite N.mod_small by lia. now rewrite Byte.of_to_N.
Qed.

Lemma lxor_byte_bound (a b : N) : (a < 256 -> b < 256 -> N.lxor a b < 256)%N.
Proof.
  intros Ha Hb.
  destruct (N.eq_dec (N.lxor a b) 0%N) as [->|Hnz]; [lia|].
  change 256%N with (2 ^ 8)%N. apply N.log2_lt_pow2; [lia|].
  pose proof (N.log2_lxor a b) as Hlog.
  assert (Hla : (N.log2 a < 8)%N).
  { destruct (N.eq_dec a 0%N) as [->|]; [reflexivity|].
    apply N.log2_lt_pow2; [lia | exact Ha]. }
  assert (Hlb : (N.log2 b < 8)%N).
  { destruct (N.eq_dec b 0%N) as [->|]; [reflexivity|].
    apply N.log2_lt_pow2; [lia | exact Hb]. }
  lia.
Qed.

Lemma byte_xor_involutive (a k : byte) : byte_xor (byte_xor a k) k = a.
Proof.
  unfold byte_xor.
  pose proof (Byte.to_N_bounded a) as Ha. pose proof (Byte.to_N_bounded k) as Hk.
  fold (N_of_byte a) in Ha. fold (N_of_byte k) in Hk.
  rewrite N_of_byte_of_N by (apply lxor_byte_bound; lia).
  rewrite N.lxor_assoc, N.lxor_nilpotent, N.lxor_0_r.
  apply byte_of_N_of_byte.
Qed.

Lemma xor_bytes_length (data ks : bytes) : length (xor_bytes data ks) = length data.
Proof.
  revert ks. induction data as [|d data IH]; intros [|k ks]; simpl; try reflexivity.
  now rewrite IH.
Qed.

Lemma xor_bytes_involutive (data ks : bytes) :
  xor_bytes (xor_bytes data ks) ks = data.
Proof.
  revert ks. induction data as [|d data IH]; intros [|k ks]; simpl; try reflexivity.
  now rewrite byte_xor_involutive, IH.
Qed.

Lemma ref_gctr_length (key : bytes) (icb : N) (data : bytes) :
  length (Gcm.gctr key icb data) = length data.
Proof. apply xor_bytes_length. Qed.

Lemma ref_gctr_involutive (key : bytes) (icb : N) (data : bytes) :
  Gcm.gctr key icb (Gcm.gctr key icb data) = data.
Proof.
  unfold Gcm.gctr at 1. rewrite ref_gctr_length.
  unfold Gcm.gctr. apply xor_bytes_involutive.
Qed.

Lemma ref_tag_length (key iv aad cipher : bytes) :
  length (Gcm.tag key iv aad cipher) = 16.
Proof. unfold Gcm.tag. now rewrite xor_bytes_length, be_bytes_length. Qed.

Lemma ref_gcm_encrypt_length (key iv data aad : bytes) :
  length (Gcm.encrypt key iv data aad) = length data + 16.
Proof.
  unfold Gcm.encrypt. now rewrite length_app, ref_gctr_length, ref_tag_length.
Qed.

Lemma ref_gcm_decrypt_encrypt (key iv data aad : bytes) :
  Gcm.decrypt key iv (Gcm.encrypt key iv data aad) aad = Some data.
Proof.
  unfold Gcm.decrypt, Gcm.encrypt.
  set (cipher := Gcm.gctr key _ data).
  rewrite length_app, ref_tag_length, Nat.add_sub.
  rewrite take_app_length, drop_app_length.
  rewrite bool_decide_eq_true_2 by reflexivity.
  unfold cipher. now rewrite ref_gctr_involutive.
Qed.

(** [hashlib] and [AESGCM] as the standards define them; the program
    passes no associated data. *)
#[global] Instance reference_crypto : CryptoLib := {|
  sha1 := Sha.sha1;
  sha256 := Sha.sha256;
  gcm_encrypt key nonce data := Gcm.encrypt key nonce data [];
  gcm_decrypt key nonce data := Gcm.decrypt key nonce data [];
  sha1_length := ref_sha1_length;
  sha256_length := ref_sha256_length;
  gcm_encrypt_length key nonce data := ref_gcm_encrypt_length key nonce data [];
  gcm_decrypt_encrypt key nonce data _ _ := ref_gcm_decrypt_encrypt key nonce data []
|}.

(** The test vectors of the standards. *)
Example sha1_abc :
  hexlify (Sha.sha1 (b_lit "abc")) = "a9993e364706816aba3e25717850c26c9cd0d89d".
Proof. vm_compute. reflexivity. Qed.

Example sha256_abc :
  hexlify (Sha.sha256 (b_lit "abc"))
  = "ba7816bf8f01cfea414140de5dae2223b00361a396177a9cb410ff61f20015ad".
Proof. vm_compute. reflexivity. Qed.

Example aes256_fips197 :
  hexlify (Aes.encrypt_block (be_bytes 32 0x000102030405060708090a0b0c0d0e0f101112131415161718191a1b1c1d1e1f)
                             (be_bytes 16 0x00112233445566778899aabbccddeeff))
  = "8ea2b7ca516745bfeafc49904b496089".
Proof. vm_compute. reflexivity. Qed.

Example gcm_aes256_zero_block :
  hexlify (Gcm.encrypt (repeat x00 32) (repeat x00 12) (repeat x00 16) [])
  = "cea7403d4d606b6e074ec5d3baf39d18d0d1c8a799996bf0265b98b5d48ab919".
Proof. vm_compute. reflexivity. Qed.

Example gcm_aes256_with_aad :
  hexlify (Gcm.tag
             (be_bytes 32 0xfeffe9928665731c6d6a8f9467308308feffe9928665731c6d6a8f9467308308)
             (be_bytes 12 0xcafebabefacedbaddecaf888)
             (be_bytes 20 0xfeedfacedeadbeeffeedfacedeadbeefabaddad2)
             (be_bytes 60 0x522dc1f099567d07f47f37a32a84427d643a8cdcbfe5c0c97598a2bd2555d1aa8cb08e48590dbb3da7b08b1056828838c5f61e6393ba7a0abcc9f662))
  = "76fc6ece0f4e1768cddf8853bb2d551b".
Proof. vm_compute. reflexivity. Qed.

(** ** Scenarios *)

Definition crlf : string := (chr 13 ++ chr 10)%string.

(** A range response in the format of the service; the second record is
    the suffix of the SHA-1 of [password]. *)
Definition range_body : string :=
  ("1D2DA4053E34E76F6576ED1DA63134B5E2A:2" ++ crlf
   ++ "1E4C9B93F3F0682250B6CF8331B7EE68FD8:3861493" ++ crlf
   ++ "1F2B668E8AABEF1C59E9EC6F82E3F3CD786:1")%string.

Definition quiet_entropy (i : nat) : byte := byte_of_N (N.of_nat (16 + 3 * i)).

(** A world with a plaintext file, a service that answers, and nothing
    typed yet. *)
Definition desk : World :=
  mkWorld {[ "note.txt" := File (b_lit "hello world") ]}
          [] [] []
          (fun url => Response 200 (if bool_decide (url = pwned_url "5BAA6")
                                    then range_body else EmptyString))
          [] quiet_entropy 0 [].

Definition unreachable (w : World) : World :=
  mkWorld (fs w) (typed w) (confirms w) (open_faults w) (fun _ => Unreachable)
          (sent w) (entropy w) (drawn w) (terminal w).

(** [desk] after the encrypt block sealed the note under [Tr0ub4dor&3]. *)
Definition sealed : World :=
  snd (encrypt_to "note.txt" "note.txt.yjch" "Tr0ub4dor&3" desk).

(** The same container under a name without the [.yjch] suffix. *)
Definition vault : World :=
  with_fs {[ "vault" := File (container_of "Tr0ub4dor&3" (b_lit "hello world") desk) ]}
          desk.

(** A file too short to hold the signature, and a directory. *)
Definition attic : World :=
  with_fs {[ "tiny" := File (b_lit "YJCH"); "photos" := Dir ]} desk.

(** The end-to-end scenario of the specification: an 11-byte plaintext
    gives a 47-byte container, the right password gives the plaintext
    back, and a wrong one leads to the retry question. *)
Example end_to_end_scenario :
  (exists container,
     fs sealed !! "note.txt.yjch" = Some (File container) /\
     length container = 47 /\ take 8 container = b_lit "YJCHGCM1") /\
  (let '(r, w) := _handle_decrypt 2
                    (scripted [Some "note.txt.yjch"; None; Some "Tr0ub4dor&3"]
                              [false] [] sealed) in
   r = Ok DecryptDone /\ fs w !! "note.txt" = Some (File (b_lit "hello world"))) /\
  (let '(r, w) := _handle_decrypt 2
                    (scripted [Some "note.txt.yjch"; Some "out.txt"; Some "wrong"]
                              [false] [] sealed) in
   r = Ok DecryptAbandoned /\ fs w = fs sealed).
Proof.
  split; [|split].
  - eexists. vm_compute. repeat split; reflexivity.
  - vm_compute. split; reflexivity.
  - vm_compute. split; reflexivity.
Qed.

(** ** The theorems at work *)

(** C1 on the scenario: the note sealed under [Tr0ub4dor&3] comes back. *)
Lemma encrypt_decrypt_round_trip_witness :
  exists w1 w2,
    encrypt_to "note.txt" "note.txt.yjch" "Tr0ub4dor&3"
               (scripted [Some "Tr0ub4dor&3"] [] [] desk) = (Ok tt, w1) /\
    fs w1 !! "note.txt.yjch"
    = Some (File (container_of "Tr0ub4dor&3" (b_lit "hello world")
                               (scripted [Some "Tr0ub4dor&3"] [] [] desk))) /\
    decrypt_loop 1 "note.txt.yjch" "out.txt" w1 = (Ok Break, w2) /\
    fs w2 !! "out.txt" = Some (File (b_lit "hello world")).
Proof.
  apply (encrypt_decrypt_round_trip 0 "note.txt" "out.txt" "Tr0ub4dor&3"
           (b_lit "hello world") [] (scripted [Some "Tr0ub4dor&3"] [] [] desk)).
  - reflexivity.
  - reflexivity.
  - discriminate.
  - reflexivity.
  - vm_compute. discriminate.
  - vm_compute. discriminate.
Defined.

(** C7 on the scenario: 11 bytes of plaintext give a container of 47. *)
Lemma encrypt_to_layout_witness :
  exists w' container,
    encrypt_to "note.txt" "note.txt.yjch" "Tr0ub4dor&3" desk = (Ok tt, w') /\
    fs w' !! "note.txt.yjch" = Some (File container) /\
    length container = 47 /\
    take 8 container = b_lit "YJCHGCM1".
Proof.
  destruct (encrypt_to_layout "note.txt" "note.txt.yjch" "Tr0ub4dor&3"
              (b_lit "hello world") desk)
    as (w' & container & Hrun & Hfile & Hlen & Hsig & _).
  - reflexivity.
  - reflexivity.
  - vm_compute. discriminate.
  - exists w', container. repeat split; assumption.
Defined.

(** C6 on the scenario: the suffix of [password] is the second record of
    the response, so the client answers true. *)
Lemma check_password_pwned_membership_witness :
  exists w', _check_password_pwned "password" desk = (Ok true, w').
Proof.
  destruct (check_password_pwned_membership "password" range_body desk)
    as (_ & _ & _ & _ & _ & breached & w' & Hrun & Hiff).
  - vm_compute. reflexivity.
  - exists w'. rewrite Hrun. f_equal. f_equal. apply Hiff.
    exists "1E4C9B93F3F0682250B6CF8331B7EE68FD8:3861493".
    split.
    + vm_compute. right. left.
    + right. exists "3861493". vm_compute. reflexivity.
Defined.

(** A service that answers every request with status 200 and [text]. *)
Definition answering (text : string) (w : World) : World :=
  mkWorld (fs w) (typed w) (confirms w) (open_faults w)
          (fun _ => Response 200 text)
          (sent w) (entropy w) (drawn w) (terminal w).

(** A body of one newline-separated record, [A:1] followed by the
    character FS (code 28), the suffix of [password] and a count. *)
Definition fs_separated_body : string :=
  ("A:1" ++ chr 28 ++ "1E4C9B93F3F0682250B6CF8331B7EE68FD8" ++ ":3")%string.

(** C6 as stated fails: the body holds no newline, so it is one record,
    and the part before its colon is [A]; yet [splitlines] cuts it at the
    FS character, the second line starts with the suffix of [password],
    and the client answers true.  On the body in the format of the
    service the two tests agree. *)
Lemma check_password_pwned_cuts_at_other_boundaries :
  spec_records fs_separated_body = [fs_separated_body] /\
  spec_suffix_field fs_separated_body = Some "A" /\
  spec_breached (str_drop 5 (sha1_hex_upper "password")) fs_separated_body = false /\
  splitlines fs_separated_body = ["A:1"; "1E4C9B93F3F0682250B6CF8331B7EE68FD8:3"] /\
  fst (_check_password_pwned "password" (answering fs_separated_body desk)) = Ok true /\
  spec_breached (str_drop 5 (sha1_hex_upper "password")) range_body = true /\
  fst (_check_password_pwned "password" (answering range_body desk)) = Ok true.
Proof. vm_compute. repeat split; reflexivity. Qed.

(** C2 on the scenario: [password23] and [qwerty401] share the prefix
    [E5E08], and the same request leaves for both. *)
Lemma check_password_pwned_sends_prefix_witness :
  sent (snd (_check_password_pwned "qwerty401" desk))
  = sent (snd (_check_password_pwned "password23" desk)) /\
  sent (snd (_check_password_pwned "password23" desk))
  = ["https://api.pwnedpasswords.com/range/E5E08"].
Proof.
  destruct (check_password_pwned_sends_prefix "password23" desk)
    as (Hsent & _ & _ & Hsame).
  split.
  - apply Hsame. vm_compute. reflexivity.
  - rewrite Hsent. vm_compute. reflexivity.
Defined.

(** C4 on the scenario: with the service unreachable the password is
    accepted, and the check answers what it answers to a clean response. *)
Lemma check_password_pwned_fail_open_witness :
  (exists w',
     _ask_password_and_verify 1 (unreachable (scripted [Some "password"] [] [] desk))
     = (Ok "password", w')) /\
  fst (_check_password_pwned "Tr0ub4dor&3" desk)
  = fst (_check_password_pwned "Tr0ub4dor&3" (unreachable desk)).
Proof.
  split.
  - destruct (check_password_pwned_fail_open 0 "password"
                (unreachable (scripted [Some "password"] [] [] desk)))
      as (_ & _ & Haccept).
    + left. reflexivity.
    + destruct (Haccept []) as (w' & Hrun & _).
      * discriminate.
      * reflexivity.
      * exists w'. exact Hrun.
  - destruct (check_password_pwned_fail_open 0 "Tr0ub4dor&3" (unreachable desk))
      as (_ & Hsame & _).
    + left. reflexivity.
    + apply Hsame. vm_compute. reflexivity.
Defined.

(** C4 as stated fails: a failed query and a clean one give the caller
    the same value, so no [queried] flag tells them apart (and a listed
    password does give another value). *)
Lemma check_password_pwned_failure_looks_clean :
  fst (_check_password_pwned "Tr0ub4dor&3" (unreachable desk)) = Ok false /\
  fst (_check_password_pwned "Tr0ub4dor&3" desk) = Ok false /\
  fst (_check_password_pwned "password" (unreachable desk)) = Ok false /\
  fst (_check_password_pwned "password" desk) = Ok true.
Proof. vm_compute. repeat split; reflexivity. Qed.

(** C3 on the scenario: a 4-byte file is no container, and probing it
    does not raise. *)
Lemma is_already_encrypted_exact_witness :
  exists w', _is_already_encrypted "tiny" attic = (Ok false, w').
Proof.
  destruct (proj1 (is_already_encrypted_exact "tiny" attic))
    as (b & w' & Hrun & _ & _ & _ & Hshort).
  - left. reflexivity.
  - vm_compute. discriminate.
  - exists w'. rewrite Hrun. f_equal. f_equal.
    apply (Hshort (b_lit "YJCH")); [reflexivity | vm_compute; lia].
Defined.

(** C3 as stated fails: a file that cannot be opened for lack of
    permission, and a directory, make the probe raise. *)
Lemma is_already_encrypted_raises :
  fst (_is_already_encrypted "note.txt" (scripted [] [] [Some PermissionError] desk))
  = Raise PermissionError /\
  fst (_is_already_encrypted "photos" attic) = Raise IsADirectoryError.
Proof. vm_compute. split; reflexivity. Qed.

Lemma rfind_from_present (sep s : string) (i : nat) :
  occurs sep s -> rfind_from sep i s <> None.
Proof.
  intros (a & c & ->). revert i. induction a as [|x a IH]; intros i.
  - rewrite str_nil_app.
    destruct (sep ++ c)%string as [|y r] eqn:Hs.
    + destruct sep; [simpl; discriminate | discriminate].
    + cbn [rfind_from]. destruct (rfind_from sep (S i) r); [discriminate|].
      rewrite <- Hs, startswith_app. discriminate.
  - rewrite str_cons_app. cbn [rfind_from].
    specialize (IH (S i)). destruct (rfind_from sep (S i) _); [discriminate | congruence].
Qed.

Lemma rfind_none_absent (sep s : string) : rfind sep s = None -> ~ occurs sep s.
Proof. intros Hnone Hocc. exact (rfind_from_present sep s 0 Hocc Hnone). Qed.

(** The decrypt workflow on the sealed note when the first read of the
    container is refused and the operator then retries. *)
Definition refused_then_retried : res decrypt_exit * World :=
  _handle_decrypt 2
    (scripted [Some "note.txt.yjch"; Some "out.txt"; Some "Tr0ub4dor&3"; Some "Tr0ub4dor&3"]
              [true; false] [None; Some PermissionError] sealed).

(** C5 as stated fails: the read of the container raises
    [PermissionError], yet the operation does not end there: the message
    of a wrong password is printed, the retry question is asked, and on
    yes the loop goes on to a successful decryption. *)
Lemma decrypt_read_failure_is_retried :
  fst refused_then_retried = Ok DecryptDone /\
  fs (snd refused_then_retried) !! "out.txt" = Some (File (b_lit "hello world")) /\
  terminal (snd refused_then_retried)
  = [Asked "Chemin du fichier";
     Asked "Chemin fichier de sortie";
     Asked "Mot de passe";
     Printed "[red]Mot de passe incorrect ou fichier corrompu.[/red]";
     Asked "Réessayer avec un autre mot de passe ?";
     Asked "Mot de passe";
     Printed "[bold green]Fichier déchiffré créé :[/bold green] out.txt";
     Asked "Supprimer le fichier chiffré note.txt.yjch ?"].
Proof. vm_compute. repeat split; reflexivity. Qed.

(** The sealed note with a script laid over it: a read that is refused
    and a no to the retry question; an operator who declines to overwrite
    the container; one who gives an empty and a wrong password and then
    gives up. *)
Definition refused : World :=
  scripted [Some "Tr0ub4dor&3"] [false] [Some PermissionError] sealed.

Definition declining : World :=
  scripted [Some "note.txt"; Some "Tr0ub4dor&3"] [false] [] sealed.

Definition stubborn : World :=
  scripted [Some ""; Some "wrong"] [false] [] sealed.

(** C5 on the scenario: the read is refused and the operator answers no
    to the retry question. *)
Lemma decrypt_read_failure_asks_retry_witness :
  fst (decrypt_loop 1 "note.txt.yjch" "out.txt" refused) = Ok Return.
Proof.
  rewrite (decrypt_read_failure_asks_retry 0 "note.txt.yjch" "out.txt" "Tr0ub4dor&3"
             [] PermissionError refused
             (scripted [] [false] [] (asked "Mot de passe" refused))).
  - vm_compute. reflexivity.
  - reflexivity.
  - discriminate.
  - vm_compute. reflexivity.
Defined.

(** C8 on the scenario: the container of the note exists already and the
    operator declines to overwrite it. *)
Lemma handle_encrypt_overwrite_declined_witness :
  exists w',
    _handle_encrypt 1 declining = (Ok EncryptCancelled, w') /\
    fs w' = fs declining.
Proof.
  pose proof (proj1 (handle_encrypt_overwrite_declined 1 declining)) as Hfwd.
  specialize (Hfwd "note.txt" "Tr0ub4dor&3" (b_lit "hello world")
                   [Some "Tr0ub4dor&3"] []).
  edestruct Hfwd as (w' & Hrun & Hfs).
  - vm_compute. reflexivity.
  - discriminate.
  - vm_compute. reflexivity.
  - vm_compute. reflexivity.
  - vm_compute. reflexivity.
  - vm_compute. eexists. reflexivity.
  - vm_compute. reflexivity.
  - exists w'. split; [exact Hrun | exact Hfs].
Defined.

(** C9 on the scenario: an empty password, then a wrong one, then no to
    the retry question: the loop ends by [return] and nothing is written. *)
Lemma decrypt_loop_state_machine_witness :
  fs (snd (decrypt_loop 2 "note.txt.yjch" "out.txt" stubborn)) = fs stubborn.
Proof.
  pose proof (proj2 (proj2 (proj2
                (decrypt_loop_state_machine 2 "note.txt.yjch" "out.txt" stubborn))))
    as Hframe.
  apply (Hframe (fst (decrypt_loop 2 "note.txt.yjch" "out.txt" stubborn))).
  - apply surjective_pairing.
  - vm_compute. discriminate.
Defined.

(** C10 on the scenario: the container is named [vault]; the operator
    accepts the default output path and the container is replaced by the
    plaintext. *)
Lemma output_default_cuts_at_last_suffix_witness :
  exists w',
    _handle_decrypt 1 (scripted [Some "vault"; None; Some "Tr0ub4dor&3"] [false] [] vault)
    = (Ok DecryptDone, w') /\
    fs w' = <[ "vault" := File (b_lit "hello world") ]> (fs vault).
Proof.
  apply (proj2 (proj2 (proj2 output_default_cuts_at_last_suffix)) 0
           (scripted [Some "vault"; None; Some "Tr0ub4dor&3"] [false] [] vault)
           "vault" "Tr0ub4dor&3"
           (container_of "Tr0ub4dor&3" (b_lit "hello world") desk)
           (b_lit "hello world") [] []).
  - apply rfind_none_absent. reflexivity.
  - discriminate.
  - discriminate.
  - reflexivity.
  - reflexivity.
  - reflexivity.
  - reflexivity.
  - vm_compute. reflexivity.
  - vm_compute. lia.
  - vm_compute. reflexivity.
Defined.

(** ** Scenarios of the workflows *)

(** The operator names a directory, hands the sealed note to the encrypt
    workflow, and a 4-byte file to the decrypt workflow. *)
Definition lost : World := scripted [Some "photos"] [] [] attic.

Definition resealing : World := scripted [Some "note.txt.yjch"] [] [] sealed.

Definition foreign : World := scripted [Some "tiny"] [] [] attic.

(** An operator who first presses Enter at the password prompt, and one
    who insists on a listed password after refusing it once. *)
Definition hesitant : World := scripted [Some ""; Some "Tr0ub4dor&3"] [] [] desk.

Definition reckless : World :=
  scripted [Some "password"; Some "password"] [false; true] [] desk.



(** Encrypting the note and deleting it; encrypting it again over the
    container that exists; decrypting [vault] onto itself and deleting
    it; the note encrypted and decrypted again. *)
Definition sealing : World := scripted [Some "note.txt"; Some "Tr0ub4dor&3"] [true] [] desk.

Definition resealed : World :=
  scripted [Some "note.txt"; Some "Tr0ub4dor&3"] [true; false] [] sealed.


Definition there_and_back : World :=
  scripted [Some "note.txt"; Some "Tr0ub4dor&3";
            Some "note.txt.yjch"; None; Some "Tr0ub4dor&3"]
           [true; true] [] desk.

(** A whole session: the menu, a wrong password, yes to the retry
    question, and no further answer. *)
Definition session : World :=
  scripted [Some "decrypt"; Some "note.txt.yjch"; None; Some "wrong"] [true] [] sealed.


(** The container of the note cut after 30 bytes. *)
Definition clipped : World :=
  with_fs {[ "cut.yjch" :=
               File (take 30 (container_of "Tr0ub4dor&3" (b_lit "hello world") desk)) ]}
          desk.

(** ** The workflow theorems at work *)

(** X1 on the scenario: [photos] is a directory, and both workflows stop
    at the first message. *)
Lemma handle_not_found_witness :
  fst (_handle_encrypt 1 lost) = Ok EncryptNotFound /\
  fst (_handle_decrypt 1 lost) = Ok DecryptNotFound /\
  fs (snd (_handle_encrypt 1 lost)) = fs lost.
Proof.
  pose proof (handle_not_found 1 (Some "photos") [] lost eq_refl) as Hw.
  cbv zeta in Hw. destruct Hw as (He & Hd & Hfs & _).
  - right. intros data. vm_compute. discriminate.
  - rewrite He, Hd. cbn [fst snd].
    split; [reflexivity|]. split; [reflexivity | exact Hfs].
Defined.

(** X2 on the scenario: the sealed note is not sealed a second time. *)
Lemma handle_encrypt_refuses_container_witness :
  exists w',
    _handle_encrypt 1 resealing = (Ok EncryptRefused, w') /\
    fs w' = fs resealing /\ typed w' = [] /\
    confirms w' = confirms resealing /\ sent w' = sent resealing.
Proof.
  apply (handle_encrypt_refuses_container 1 "note.txt.yjch"
           (container_of "Tr0ub4dor&3" (b_lit "hello world") desk) [] resealing).
  - reflexivity.
  - discriminate.
  - vm_compute. reflexivity.
  - reflexivity.
  - vm_compute. reflexivity.
Defined.

(** X3 on the scenario: the 4-byte file is no container. *)
Lemma handle_decrypt_rejects_foreign_witness :
  exists w',
    _handle_decrypt 1 foreign = (Ok DecryptNotContainer, w') /\
    fs w' = fs foreign /\ typed w' = [] /\ confirms w' = confirms foreign.
Proof.
  apply (handle_decrypt_rejects_foreign 1 "tiny" (b_lit "YJCH") [] foreign).
  - reflexivity.
  - discriminate.
  - vm_compute. reflexivity.
  - reflexivity.
  - vm_compute. discriminate.
Defined.

(** X4 on the scenario: the container of the note is recognised. *)
Lemma encrypt_to_then_probe_witness :
  exists w1 w2,
    encrypt_to "note.txt" "note.txt.yjch" "Tr0ub4dor&3" desk = (Ok tt, w1) /\
    _is_already_encrypted "note.txt.yjch" w1 = (Ok true, w2).
Proof.
  apply (encrypt_to_then_probe "note.txt" "note.txt.yjch" "Tr0ub4dor&3"
           (b_lit "hello world") desk).
  - reflexivity.
  - reflexivity.
  - discriminate.
  - vm_compute. discriminate.
Defined.

(** X5 on the scenario: Enter, then a password; the password comes back. *)
Lemma ask_password_and_verify_returns_typed_witness :
  "Tr0ub4dor&3" <> EmptyString /\
  Some "Tr0ub4dor&3" ∈ typed hesitant /\
  fs (snd (_ask_password_and_verify 2 hesitant)) = fs hesitant.
Proof.
  apply (ask_password_and_verify_returns_typed 2 hesitant
           (snd (_ask_password_and_verify 2 hesitant)) "Tr0ub4dor&3").
  vm_compute. reflexivity.
Defined.

(** X6 on the scenario: [password] is listed; the operator refuses it
    once and then insists. *)
Lemma ask_password_and_verify_override_witness :
  exists refusals,
    confirms reckless
    = repeat false refusals
        ++ (match fst (_check_password_pwned "password" reckless) with
            | Ok true => [true]
            | _ => []
            end)
        ++ confirms (snd (_ask_password_and_verify 2 reckless)).
Proof.
  apply (ask_password_and_verify_override 2 reckless
           (snd (_ask_password_and_verify 2 reckless)) "password").
  vm_compute. reflexivity.
Defined.



(** X12 on the scenario: the note is sealed and, on yes, removed. *)
Lemma handle_encrypt_removes_original_on_yes_only_witness :
  exists w',
    _handle_encrypt 1 sealing = (Ok EncryptDone, w') /\
    fs w' !! "note.txt.yjch"
    = Some (File (container_of "Tr0ub4dor&3" (b_lit "hello world") sealing)) /\
    fs w' !! "note.txt" = None.
Proof.
  destruct (handle_encrypt_removes_original_on_yes_only 0 "note.txt" "Tr0ub4dor&3"
              (b_lit "hello world") [] true [] sealing)
    as (w' & Hrun & Hcontainer & Horiginal).
  - reflexivity.
  - reflexivity.
  - reflexivity.
  - discriminate.
  - discriminate.
  - vm_compute. reflexivity.
  - vm_compute. discriminate.
  - vm_compute. reflexivity.
  - vm_compute. reflexivity.
  - exists w'. split; [exact Hrun|]. split; [exact Hcontainer | exact Horiginal].
Defined.

(** X13 on the scenario: the note is sealed again over its container,
    under the next nonce. *)
Lemma handle_encrypt_overwrites_on_yes_witness :
  exists w',
    _handle_encrypt 1 resealed = (Ok EncryptDone, w') /\
    fs w' !! "note.txt.yjch"
    = Some (File (container_of "Tr0ub4dor&3" (b_lit "hello world") resealed)).
Proof.
  destruct (handle_encrypt_overwrites_on_yes 0 "note.txt" "Tr0ub4dor&3"
              (b_lit "hello world")
              (container_of "Tr0ub4dor&3" (b_lit "hello world") desk)
              [] false [] resealed)
    as (w' & Hrun & Hcontainer & _).
  - reflexivity.
  - reflexivity.
  - reflexivity.
  - discriminate.
  - discriminate.
  - vm_compute. reflexivity.
  - vm_compute. discriminate.
  - vm_compute. reflexivity.
  - vm_compute. reflexivity.
  - exists w'. split; [exact Hrun | exact Hcontainer].
Defined.


(** X15 on the scenario: the note is sealed and removed, then opened
    again and the container removed; the desk is as it was. *)
Lemma encrypt_then_decrypt_restores_witness :
  exists w1 w2,
    _handle_encrypt 1 there_and_back = (Ok EncryptDone, w1) /\
    fs w1 !! "note.txt" = None /\
    _handle_decrypt 1 w1 = (Ok DecryptDone, w2) /\
    fs w2 = fs there_and_back.
Proof.
  apply (encrypt_then_decrypt_restores 0 0 "note.txt" "Tr0ub4dor&3"
           (b_lit "hello world") [] [] there_and_back).
  - reflexivity.
  - reflexivity.
  - reflexivity.
  - discriminate.
  - discriminate.
  - vm_compute. reflexivity.
  - vm_compute. discriminate.
  - vm_compute. reflexivity.
  - vm_compute. reflexivity.
Defined.

(** X16 on the scenario: four answers and five iterations allowed; the
    session ends waiting for a password. *)
Lemma run_ends_with_script_witness :
  fst (run 5 session) = Ok tt \/ fst (run 5 session) = Blocked \/
  exists e, fst (run 5 session) = Raise e.
Proof.
  apply (run_ends_with_script 5 session). vm_compute. lia.
Defined.

(** X17 on the scenario: 30 bytes hold the signature and the nonce but
    no whole tag. *)
Lemma decrypt_to_truncated_container_witness :
  exists e w',
    decrypt_to "cut.yjch" "out.txt" (_derive_key "Tr0ub4dor&3") clipped = (Raise e, w') /\
    fs w' = fs clipped.
Proof.
  apply (decrypt_to_truncated_container "cut.yjch" "out.txt"
           (_derive_key "Tr0ub4dor&3")
           (take 30 (container_of "Tr0ub4dor&3" (b_lit "hello world") desk)) clipped).
  - vm_compute. reflexivity.
  - vm_compute. lia.
Defined.

(** X19 on the scenario: the sealed note is refused and nothing changes. *)
Lemma handle_encrypt_changes_only_when_done_witness :
  fs (snd (_handle_encrypt 1 resealing)) = fs resealing.
Proof.
  apply (handle_encrypt_changes_only_when_done 1 resealing
           (snd (_handle_encrypt 1 resealing)) EncryptRefused).
  - vm_compute. reflexivity.
  - discriminate.
Defined.

